(** * lunar-test: the rocket resequencer and its state projection

    A shallow embedding of [internal/rockets] (model.go, service.go,
    repository.go): the message log, the rocket projections, the state
    transition [applyMessage] and the reconcile cycle [Process] that
    [Ingest] runs after logging a message.

    Conventions of the embedding:
    - Go's [int] is a 64-bit two's complement integer: a [Z] together with
      the wrap-around [wrap_int] written at every arithmetic operation;
    - a pointer field ([*int], [*string], [*time.Time]) is an [option];
    - a function that mutates the rocket it is given through a pointer and
      returns an [error] becomes a function returning the mutated rocket
      together with [option error];
    - the two Mongo collections are explicit state ([World]); a storage
      call that can fail for reasons outside the program takes its outcome
      from a [Faults] record given per call;
    - the per-channel mutex makes one [Process] call atomic with respect to
      the other calls of the same channel, and calls of different channels
      touch disjoint rows: a run is a sequence of [Ingest] calls. *)

From Stdlib Require Import ZArith Lia SpecFloat.
From stdpp Require Import base decidable option list sorting gmap strings.

Local Open Scope Z_scope.
Local Open Scope string_scope.
Local Open Scope list_scope.

(** ** Machine integers *)

Definition int_min : Z := - 2 ^ 63.
Definition int_max : Z := 2 ^ 63 - 1.

Definition int_range (z : Z) : Prop := int_min <= z <= int_max.

#[global] Instance int_range_dec z : Decision (int_range z).
Proof. unfold int_range. apply _. Defined.

(** Two's complement wrap-around of a 64-bit signed result. *)
Definition wrap_int (z : Z) : Z := (z + 2 ^ 63) mod 2 ^ 64 - 2 ^ 63.

(** ** Values of [map[string]interface{}] as produced by the JSON decoder *)

(** A JSON number is decoded into a [float64]. *)
Definition float64 : Type := spec_float.

#[local] Unset Elimination Schemes.
Inductive JSONValue : Type :=
  | JNull
  | JBool (b : bool)
  | JNumber (f : float64)
  | JString (s : string)
  | JArray (l : list JSONValue)
  | JObject (l : list (string * JSONValue)).
#[local] Set Elimination Schemes.

(** [v, ok := x.(string)] on the result of a map lookup; a missing key
    yields the nil interface, on which the assertion fails with the zero
    value. *)
Definition assert_string (x : option JSONValue) : string * bool :=
  match x with
  | Some (JString s) => (s, true)
  | _ => ("", false)
  end.

(** [v, ok := x.(float64)]. *)
Definition assert_float64 (x : option JSONValue) : float64 * bool :=
  match x with
  | Some (JNumber f) => (f, true)
  | _ => (S754_zero false, false)
  end.

(** The conversion [int(f)]: the fraction is discarded (truncation towards
    zero). For a value that does not fit (or NaN, or an infinity) Go leaves
    the result to the implementation; amd64 yields the smallest int. *)
Definition int_of_float64 (f : float64) : Z :=
  match f with
  | S754_zero _ => 0
  | S754_finite s m e =>
      let magnitude :=
        if decide (0 <= e) then Z.pos m * 2 ^ e else Z.pos m / 2 ^ (- e) in
      let z := if s then - magnitude else magnitude in
      if decide (int_range z) then z else int_min
  | S754_infinity _ | S754_nan => int_min
  end.

(** ** model.go *)

(** A [uuid.UUID] is its 128-bit value, an [N]. A [time.Time] is an instant
    on a discrete time line. *)
Definition Time : Type := Z.

Module Metadata.
Record t : Type := mk {
  Channel : N;
  MessageNumber : Z;
  MessageTime : Time;
  MessageType : string
}.
End Metadata.

Module Message.
Record t : Type := mk {
  Metadata : Metadata.t;
  Message : gmap string JSONValue
}.
End Message.

Module Rocket.
Record t : Type := mk {
  Channel : N;
  Type_ : string;
  Speed : Z;
  Mission : string;
  Status : string;
  ExplosionReason : option string;
  LastMessageNumber : option Z;
  LastMessageTime : option Time
}.
End Rocket.

Definition channel_of (msg : Message.t) : N :=
  Metadata.Channel (Message.Metadata msg).

Definition number_of (msg : Message.t) : Z :=
  Metadata.MessageNumber (Message.Metadata msg).

Definition kind_of (msg : Message.t) : string :=
  Metadata.MessageType (Message.Metadata msg).

(** ** Errors *)

(** An [error] value. [ProcessMessageError], [StoreMessageError] and
    [UpdateRocketError] are string constants of the package whose
    declaration is not part of the sources at hand: the errors made from
    them are kept symbolic. [DriverError] stands for any error of the Mongo
    driver other than [mongo.ErrNoDocuments]. *)
Inductive error : Type :=
  | ErrorString (text : string)
  | ProcessMessageError
  | StoreMessageError
  | UpdateRocketError
  | ErrNoDocuments
  | DriverError.

(** ** service.go: the state transition *)

Definition set_cursor (rocket : Rocket.t) (msg : Message.t) : Rocket.t :=
  Rocket.mk (Rocket.Channel rocket) (Rocket.Type_ rocket) (Rocket.Speed rocket)
    (Rocket.Mission rocket) (Rocket.Status rocket)
    (Rocket.ExplosionReason rocket)
    (Some (number_of msg))
    (Some (Metadata.MessageTime (Message.Metadata msg))).

Definition applyMessage (rocket : Rocket.t) (msg : Message.t)
  : Rocket.t * option error :=
  (* Update metadata from the current message *)
  let rocket := set_cursor rocket msg in
  let payload := Message.Message msg in
  let kind := kind_of msg in
  if decide (kind = "RocketLaunched") then
    let rocketType := (assert_string (payload !! "type")).1 in
    let launchSpeed := (assert_float64 (payload !! "launchSpeed")).1 in
    let mission := (assert_string (payload !! "mission")).1 in
    (Rocket.mk (Rocket.Channel rocket) rocketType (int_of_float64 launchSpeed)
       mission "active" (Rocket.ExplosionReason rocket)
       (Rocket.LastMessageNumber rocket) (Rocket.LastMessageTime rocket),
     None)
  else if decide (kind = "RocketSpeedIncreased") then
    let '(by_, ok) := assert_float64 (payload !! "by") in
    if ok then
      (Rocket.mk (Rocket.Channel rocket) (Rocket.Type_ rocket)
         (wrap_int (Rocket.Speed rocket + int_of_float64 by_))
         (Rocket.Mission rocket) (Rocket.Status rocket)
         (Rocket.ExplosionReason rocket)
         (Rocket.LastMessageNumber rocket) (Rocket.LastMessageTime rocket),
       None)
    else (rocket, Some (ErrorString "invalid RocketSpeedIncreased message"))
  else if decide (kind = "RocketSpeedDecreased") then
    let '(by_, ok) := assert_float64 (payload !! "by") in
    if ok then
      (Rocket.mk (Rocket.Channel rocket) (Rocket.Type_ rocket)
         (wrap_int (Rocket.Speed rocket - int_of_float64 by_))
         (Rocket.Mission rocket) (Rocket.Status rocket)
         (Rocket.ExplosionReason rocket)
         (Rocket.LastMessageNumber rocket) (Rocket.LastMessageTime rocket),
       None)
    else (rocket, Some (ErrorString "invalid RocketSpeedDecreased message"))
  else if decide (kind = "RocketExploded") then
    let reason := (assert_string (payload !! "reason")).1 in
    (Rocket.mk (Rocket.Channel rocket) (Rocket.Type_ rocket)
       (Rocket.Speed rocket) (Rocket.Mission rocket) "exploded" (Some reason)
       (Rocket.LastMessageNumber rocket) (Rocket.LastMessageTime rocket),
     None)
  else if decide (kind = "RocketMissionChanged") then
    let '(newMission, ok) := assert_string (payload !! "newMission") in
    if ok then
      (Rocket.mk (Rocket.Channel rocket) (Rocket.Type_ rocket)
         (Rocket.Speed rocket) newMission (Rocket.Status rocket)
         (Rocket.ExplosionReason rocket)
         (Rocket.LastMessageNumber rocket) (Rocket.LastMessageTime rocket),
       None)
    else (rocket, Some (ErrorString "invalid RocketMissionChanged message"))
  else (rocket, Some (ErrorString "unknown message type")).

(** The loop of [buildRocketState]: apply each message, stop at the first
    error. The rocket is returned as the loop left it. *)
Fixpoint applyEach (rocket : Rocket.t) (messages : list Message.t)
  : Rocket.t * option error :=
  match messages with
  | [] => (rocket, None)
  | msg :: rest =>
      match applyMessage rocket msg with
      | (rocket', None) => applyEach rocket' rest
      | (rocket', Some err) => (rocket', Some err)
      end
  end.

(** [&Rocket{Channel: channelID, Status: "active"}]: the other fields hold
    their zero values. *)
Definition newRocket (channelID : N) : Rocket.t :=
  Rocket.mk channelID "" 0 "" "active" None None None.

(** [(rocket, nil)] is [inl rocket]; [(nil, err)] is [inr err]. *)
Definition buildRocketState (channelID : N) (messages : list Message.t)
  : Rocket.t + error :=
  match applyEach (newRocket channelID) messages with
  | (rocket, None) => inl rocket
  | (_, Some err) => inr err
  end.

(** ** repository.go: the two collections *)

(** The [messages] collection holds the logged rows in insertion order; the
    [rockets] collection holds at most one document per channel, since
    [Upsert] is its only writer and is keyed by the channel. *)
Record World : Type := mkWorld {
  messages : list Message.t;
  rockets : gmap N Rocket.t
}.

Definition emptyWorld : World := mkWorld [] ∅.

(** Which storage calls of one [Ingest] fail in the driver. *)
Record Faults : Type := mkFaults {
  insert_fails : bool;
  find_one_fails : bool;
  find_fails : bool;
  update_fails : bool
}.

Definition no_faults : Faults := mkFaults false false false false.

(** [MongoMessageRepository.Store]: one more row, whatever its number. *)
Definition Store (f : Faults) (w : World) (message : Message.t)
  : World * option error :=
  if insert_fails f then (w, Some StoreMessageError)
  else (mkWorld (messages w ++ [message]) (rockets w), None).

(** The sort of [FindAfterNumber]: ascending [metadata.messageNumber]. *)
Definition number_le (x y : Message.t) : Prop := number_of x <= number_of y.

#[global] Instance number_le_dec x y : Decision (number_le x y).
Proof. unfold number_le. apply _. Defined.

Definition after_number (channel : N) (number : Z) (msg : Message.t) : Prop :=
  channel_of msg = channel ∧ number < number_of msg.

#[global] Instance after_number_dec channel number msg :
  Decision (after_number channel number msg).
Proof. unfold after_number. apply _. Defined.

(** [MongoMessageRepository.FindAfterNumber]: the rows of the channel whose
    number is greater than [number], sorted by number. *)
Definition FindAfterNumber (f : Faults) (w : World) (channel : N) (number : Z)
  : list Message.t + error :=
  if find_fails f then inr DriverError
  else inl (merge_sort number_le (filter (after_number channel number) (messages w))).

(** [MongoRocketsRepository.FindByChannel] returns [(rocket, nil)] or
    [(nil, err)]; a channel without a document is reported through the
    error [mongo.ErrNoDocuments] of [Decode]. *)
Definition FindByChannel (f : Faults) (w : World) (channel : N)
  : option Rocket.t * option error :=
  if find_one_fails f then (None, Some DriverError)
  else match rockets w !! channel with
       | Some rocket => (Some rocket, None)
       | None => (None, Some ErrNoDocuments)
       end.

(** [MongoRocketsRepository.Upsert]: every field is set on the document of
    the rocket's channel, which is created when missing. *)
Definition Upsert (f : Faults) (w : World) (rocket : Rocket.t)
  : World * option error :=
  if update_fails f then (w, Some UpdateRocketError)
  else (mkWorld (messages w) (<[Rocket.Channel rocket := rocket]> (rockets w)), None).

(** ** service.go: the resequencer *)

(** How a call ends: it returns an [error] (possibly nil), or it panics on
    a nil pointer dereference. *)
Inductive outcome : Type :=
  | Returned (err : option error)
  | Panicked.

(** The loop of [Process] over the fetched rows:
    [if msg.Metadata.MessageNumber == *rocket.LastMessageNumber+1] apply the
    row, [else break]. *)
Fixpoint foldMessages (rocket : Rocket.t) (msgs : list Message.t)
  : Rocket.t * outcome :=
  match msgs with
  | [] => (rocket, Returned None)
  | msg :: rest =>
      match Rocket.LastMessageNumber rocket with
      | None => (rocket, Panicked)
      | Some last =>
          if decide (number_of msg = wrap_int (last + 1)) then
            match applyMessage rocket msg with
            | (rocket', None) => foldMessages rocket' rest
            | (rocket', Some _) => (rocket', Returned (Some ProcessMessageError))
            end
          else (rocket, Returned None)
      end
  end.

(** The rocket [Process] works on: built from the message itself when its
    number is 1, read from the store otherwise (an error of the read is
    logged and the rocket is nil). *)
Definition rocketInHand (f : Faults) (w : World) (message : Message.t)
  : option Rocket.t + error :=
  if decide (number_of message = 1) then
    match buildRocketState (channel_of message) [message] with
    | inl rocket => inl (Some rocket)
    | inr _ => inr ProcessMessageError
    end
  else inl (FindByChannel f w (channel_of message)).1.

Definition Process (f : Faults) (w : World) (message : Message.t)
  : World * outcome :=
  match rocketInHand f w message with
  | inr err => (w, Returned (Some err))
  | inl None => (w, Returned None)
  | inl (Some rocket) =>
      match Rocket.LastMessageNumber rocket with
      | None => (w, Panicked)
      | Some last =>
          match FindAfterNumber f w (channel_of message) last with
          | inr _ => (w, Returned (Some ProcessMessageError))
          | inl msgs =>
              match foldMessages rocket msgs with
              | (rocket', Returned None) =>
                  (* Persist rocket *)
                  match Upsert f w rocket' with
                  | (_, Some _) => (w, Returned (Some ProcessMessageError))
                  | (w', None) => (w', Returned None)
                  end
              | (_, out) => (w, out)
              end
          end
      end
  end.

Definition Ingest (f : Faults) (w : World) (message : Message.t)
  : World * outcome :=
  match Store f w message with
  | (_, Some err) => (w, Returned (Some err))
  | (w', None) => Process f w' message
  end.

(** A run without storage faults: the messages are ingested one after the
    other, each call reporting to its own caller. *)
Definition ingestAll (w : World) (arrival : list Message.t) : World :=
  foldl (λ w message, (Ingest no_faults w message).1) w arrival.

(** ** Notions used by the statements *)

(** The five kinds [applyMessage] has a case for. *)
Definition known_kinds : list string :=
  ["RocketLaunched"; "RocketSpeedIncreased"; "RocketSpeedDecreased";
   "RocketExploded"; "RocketMissionChanged"].

(** [applyMessage] accepts the message: whether it does depends on the
    message alone, see [applyMessage_error_independent]. *)
Definition accepted (msg : Message.t) : Prop :=
  ∀ rocket, (applyMessage rocket msg).2 = None.

(** The state of a rocket after the messages were applied in list order,
    errors aside. *)
Definition stateAfter (rocket : Rocket.t) (msgs : list Message.t) : Rocket.t :=
  foldl (λ rocket msg, (applyMessage rocket msg).1) rocket msgs.

(** [applyMessage] refuses the message, whatever the rocket. *)
Definition rejected (msg : Message.t) : Prop :=
  ∀ rocket, (applyMessage rocket msg).2 ≠ None.

(** The rows carry the numbers the loop of [Process] expects one after the
    other when it starts at [cursor]: each is the successor, as an int, of
    the number before it. *)
Fixpoint consecutiveFrom (cursor : Z) (msgs : list Message.t) : Prop :=
  match msgs with
  | [] => True
  | msg :: rest =>
      number_of msg = wrap_int (cursor + 1) ∧ consecutiveFrom (number_of msg) rest
  end.

(** The cursor after the rows were applied to a rocket standing at
    [cursor]. *)
Definition cursorAfter (cursor : Z) (msgs : list Message.t) : Z :=
  foldl (λ _ msg, number_of msg) cursor msgs.

(** Nothing of the channel is stored yet: no logged row, no projection. *)
Definition channelFresh (channel : N) (w : World) : Prop :=
  Forall (λ msg, channel_of msg ≠ channel) (messages w)
  ∧ rockets w !! channel = None.

(** The number of a message is a Go [int]. *)
Definition wellFormed (msg : Message.t) : Prop := int_range (number_of msg).

#[global] Instance wellFormed_dec msg : Decision (wellFormed msg).
Proof. unfold wellFormed. apply _. Defined.

(** The worlds the service can be in: it starts with two empty collections
    and every change is made by an [Ingest], with any message and with any
    of the storage calls failing. *)
Inductive reachable : World → Prop :=
  | reachable_empty : reachable emptyWorld
  | reachable_ingest f w message :
      reachable w → wellFormed message → reachable (Ingest f w message).1.

(** The rows carry the numbers 1, 2, 3, ... in list order. *)
Definition numberedFromOne (msgs : list Message.t) : Prop :=
  ∀ i msg, msgs !! i = Some msg → number_of msg = Z.of_nat i + 1.

(** The rocket is what a fresh rocket of the channel becomes when logged
    rows of the channel numbered 1, 2, ..., one row per number, are applied
    in that order. *)
Definition foldOfLog (w : World) (channel : N) (rocket : Rocket.t) : Prop :=
  ∃ applied,
    applied ≠ []
    ∧ numberedFromOne applied
    ∧ Forall (λ msg, msg ∈ messages w ∧ channel_of msg = channel) applied
    ∧ buildRocketState channel applied = inl rocket.

(** The rows on which one call of the loop of [Process] calls
    [applyMessage]. *)
Fixpoint foldApplied (rocket : Rocket.t) (msgs : list Message.t) : list Message.t :=
  match msgs with
  | [] => []
  | msg :: rest =>
      match Rocket.LastMessageNumber rocket with
      | None => []
      | Some last =>
          if decide (number_of msg = wrap_int (last + 1)) then
            msg :: match applyMessage rocket msg with
                   | (rocket', None) => foldApplied rocket' rest
                   | (_, Some _) => []
                   end
          else []
      end
  end.

(** The rows on which one call of [Process] calls [applyMessage]: the
    message itself on the fast path, then the rows of the loop. *)
Definition appliedRows (f : Faults) (w : World) (message : Message.t)
  : list Message.t :=
  (if decide (number_of message = 1) then [message] else [])
  ++ match rocketInHand f w message with
     | inl (Some rocket) =>
         match Rocket.LastMessageNumber rocket with
         | Some last =>
             match FindAfterNumber f w (channel_of message) last with
             | inl msgs => foldApplied rocket msgs
             | inr _ => []
             end
         | None => []
         end
     | _ => []
     end.

(** What holds of every world the service can be in: the logged numbers
    are Go ints, and every stored projection is a fold of the log. *)
Definition worldInvariant (w : World) : Prop :=
  Forall wellFormed (messages w)
  ∧ ∀ channel rocket, rockets w !! channel = Some rocket → foldOfLog w channel rocket.

(** Every stored projection has its cursor set. *)
Definition cursorsSet (w : World) : Prop :=
  ∀ channel rocket,
    rockets w !! channel = Some rocket → is_Some (Rocket.LastMessageNumber rocket).

(** The world has caught up with the rows [arrived] of the channel, taken
    from the messages [ms] numbered from one: they are the rows of the
    channel in the log, and the stored projection is the fold of the
    longest gapless prefix of [ms] that has arrived (none if the first
    message has not). *)
Definition caughtUp (channel : N) (ms arrived : list Message.t) (w : World) : Prop :=
  filter (λ msg, channel_of msg = channel) (messages w) ≡ₚ arrived
  ∧ (((∀ msg, ms !! 0%nat = Some msg → msg ∉ arrived)
      ∧ rockets w !! channel = None)
     ∨ ∃ k : nat,
         (1 ≤ k ≤ length ms)%nat
         ∧ (∀ msg, msg ∈ take k ms → msg ∈ arrived)
         ∧ (∀ msg, ms !! k = Some msg → msg ∉ arrived)
         ∧ rockets w !! channel = Some (stateAfter (newRocket channel) (take k ms))).

(** The world in which [Ingest] starts the reconcile cycle: [Store] has
    appended the message to the log. *)
Definition afterStore (w : World) (message : Message.t) : World :=
  mkWorld (messages w ++ [message]) (rockets w).

(** ** Sample messages *)

Definition message (channel : N) (number : Z) (time : Time) (kind : string)
    (payload : list (string * JSONValue)) : Message.t :=
  Message.mk (Metadata.mk channel number time kind) (list_to_map payload).

(** The [float64] of a positive whole number. *)
Definition whole (p : positive) : float64 := S754_finite false p 0.

Definition launched (channel : N) (number : Z) (speed : positive) : Message.t :=
  message channel number 1000 "RocketLaunched"
    [("type", JString "Falcon-9"); ("launchSpeed", JNumber (whole speed));
     ("mission", JString "ARTEMIS")].

Definition speedIncreased (channel : N) (number : Z) (by_ : float64) : Message.t :=
  message channel number 2000 "RocketSpeedIncreased" [("by", JNumber by_)].

Definition speedDecreased (channel : N) (number : Z) (by_ : float64) : Message.t :=
  message channel number 3000 "RocketSpeedDecreased" [("by", JNumber by_)].

Definition exploded (channel : N) (number : Z) : Message.t :=
  message channel number 4000 "RocketExploded"
    [("reason", JString "PRESSURE_VESSEL_FAILURE")].

Definition teleported (channel : N) (number : Z) : Message.t :=
  message channel number 5000 "RocketTeleported" [].

Definition firstLaunch : Message.t := launched 7 1 500.
Definition secondLaunch : Message.t := launched 7 1 900.

(** A rocket of channel 7 that exploded at message 2. *)
Definition explodedRocket : Rocket.t :=
  Rocket.mk 7 "Falcon-9" 500 "ARTEMIS" "exploded"
    (Some "PRESSURE_VESSEL_FAILURE") (Some 2) (Some 4000).

(** A rocket of channel 7 right after its launch message. *)
Definition launchedRocket : Rocket.t := stateAfter (newRocket 7) [firstLaunch].

(** Channel 7 after its launch message alone was ingested. *)
Definition launchedWorld : World := ingestAll emptyWorld [firstLaunch].

(** Channel 7 with the projection at message 1 and, in the log, message 2,
    a message 3 of an unknown kind and message 4. *)
Definition stalledWorld : World :=
  mkWorld [firstLaunch; speedIncreased 7 2 (whole 3000); teleported 7 3; exploded 7 4]
    (<[7%N := launchedRocket]> ∅).

(** Channel 7 after two different rows numbered 1 were ingested. *)
Definition relaunchedWorld : World := ingestAll emptyWorld [firstLaunch; secondLaunch].

(** Channel 7 with the projection at message 1 while messages 3 and 2 are
    logged: message 2 has just been stored and its cycle has not run. *)
Definition pendingWorld : World :=
  mkWorld [speedDecreased 7 3 (whole 500); firstLaunch; speedIncreased 7 2 (whole 3000)]
    (<[7%N := launchedRocket]> ∅).

(** Channel 7 after messages 1 and 2, a message 3 of an unknown kind and
    message 4 were ingested in that order. *)
Definition refusedWorld : World :=
  ingestAll emptyWorld
    [firstLaunch; speedIncreased 7 2 (whole 3000); teleported 7 3; exploded 7 4].

Definition missionChanged (channel : N) (number : Z) : Message.t :=
  message channel number 6000 "RocketMissionChanged" [("newMission", JString "MARS")].

(** ** The shape of a projection *)

(** What [applyMessage] keeps of a rocket: the status is one of the two
    the code ever assigns, an exploded rocket carries a reason, and the
    speed is a Go int. *)
Definition wellShaped (rocket : Rocket.t) : Prop :=
  (Rocket.Status rocket = "active" ∨ Rocket.Status rocket = "exploded")
  ∧ (Rocket.Status rocket = "exploded" → is_Some (Rocket.ExplosionReason rocket))
  ∧ int_range (Rocket.Speed rocket).

(** What the payload has to hold for [applyMessage] to go through, kind by
    kind, as its [switch] reads. *)
Definition payloadFits (msg : Message.t) : Prop :=
  kind_of msg = "RocketLaunched"
  ∨ kind_of msg = "RocketExploded"
  ∨ ((kind_of msg = "RocketSpeedIncreased" ∨ kind_of msg = "RocketSpeedDecreased")
     ∧ ∃ by_, Message.Message msg !! "by" = Some (JNumber by_))
  ∨ (kind_of msg = "RocketMissionChanged"
     ∧ ∃ newMission, Message.Message msg !! "newMission" = Some (JString newMission)).

(** ** repository.go: the query of a whole channel *)

(** [MongoMessageRepository.FindByChannel]: the rows of the channel, sorted
    by number. *)
Definition MessageRepository_FindByChannel (f : Faults) (w : World) (channel : N)
  : list Message.t + error :=
  if find_fails f then inr DriverError
  else inl (merge_sort number_le
              (filter (λ msg, channel_of msg = channel) (messages w))).

(** ** service.go: one mutex per channel *)

(** The [channelMutexes] map of the service. A [*sync.Mutex] is the address
    of the mutex; [&sync.Mutex{}] yields an address no earlier allocation
    has, here the count of the allocations so far. *)
Record Mutexes : Type := mkMutexes {
  channelMutexes : gmap N nat;
  allocated : nat
}.

(** [make(map[uuid.UUID]*sync.Mutex)] in [NewResequencerMessageService]. *)
Definition newMutexes : Mutexes := mkMutexes ∅ 0.

(** [getChannelMutex], run under [mutexLock]. *)
Definition getChannelMutex (m : Mutexes) (channel : N) : Mutexes * nat :=
  match channelMutexes m !! channel with
  | Some mutex => (m, mutex)
  | None =>
      let m' := mkMutexes (<[channel := allocated m]> (channelMutexes m))
                  (S (allocated m)) in
      (m', allocated m)
  end.

(** The lock maps the service can hold. *)
Inductive mutexesReachable : Mutexes → Prop :=
  | mutexes_new : mutexesReachable newMutexes
  | mutexes_get m channel :
      mutexesReachable m → mutexesReachable (getChannelMutex m channel).1.

(** ** The HTTP handlers *)

Definition StatusOK : Z := 200.
Definition StatusBadRequest : Z := 400.
Definition StatusNotFound : Z := 404.
Definition StatusInternalServerError : Z := 500.

(** What a handler does: it writes a status, or the panic of the code it
    calls passes through it. *)
Inductive response : Type :=
  | Status (code : Z)
  | HandlerPanicked.

(** [RocketsAPI.PostMessage]. The body is given as the result of
    [json.NewDecoder(r.Body).Decode(&message)]: [None] when decoding
    fails. *)
Definition PostMessage (f : Faults) (w : World) (body : option Message.t)
  : World * response :=
  match body with
  | None => (w, Status StatusBadRequest)
  | Some message =>
      match Ingest f w message with
      | (w', Returned (Some _)) => (w', Status StatusInternalServerError)
      | (w', Returned None) => (w', Status StatusOK)
      | (w', Panicked) => (w', HandlerPanicked)
      end
  end.

(** [toAPIRocket]: every field is copied, the pointers to fresh cells. *)
Definition toAPIRocket (r : Rocket.t) : Rocket.t :=
  let lastNum := match Rocket.LastMessageNumber r with
                 | Some v => Some v
                 | None => None
                 end in
  let lastTime := match Rocket.LastMessageTime r with
                  | Some v => Some v
                  | None => None
                  end in
  Rocket.mk (Rocket.Channel r) (Rocket.Type_ r) (Rocket.Speed r) (Rocket.Mission r)
    (Rocket.Status r) (Rocket.ExplosionReason r) lastNum lastTime.

(** [RocketsService.GetByChannel]. *)
Definition GetByChannel (f : Faults) (w : World) (channel : N)
  : option Rocket.t * option error :=
  FindByChannel f w channel.

(** [RocketsAPI.GetRocket]: the status and, with [StatusOK], the rocket
    that is encoded into the body. The rocket is dereferenced as soon as
    the error is nil. *)
Definition GetRocket (f : Faults) (w : World) (channel : N)
  : response * option Rocket.t :=
  match GetByChannel f w channel with
  | (_, Some _) => (Status StatusNotFound, None)
  | (Some rkt, None) => (Status StatusOK, Some (toAPIRocket rkt))
  | (None, None) => (HandlerPanicked, None)
  end.

(** The lock map after further calls of [getChannelMutex], one per channel
    of the list. *)
Definition mutexesAfter (m : Mutexes) (channels : list N) : Mutexes :=
  foldl (λ m channel, (getChannelMutex m channel).1) m channels.
(** * Properties *)

(** ** The scenarios of the acceptance tests *)

Example in_order_scenario :
  rockets (ingestAll emptyWorld
             [launched 7 1 500; speedIncreased 7 2 (whole 3000);
              speedDecreased 7 3 (whole 500)]) !! 7%N
  = Some (Rocket.mk 7 "Falcon-9" 3000 "ARTEMIS" "active" None (Some 3) (Some 3000)).
Proof. vm_compute. reflexivity. Qed.

Example out_of_order_scenario :
  rockets (ingestAll emptyWorld [speedDecreased 7 3 (whole 500)]) = ∅
  ∧ (Rocket.LastMessageNumber <$>
       rockets (ingestAll emptyWorld
                  [speedDecreased 7 3 (whole 500); launched 7 1 500]) !! 7%N)
    = Some (Some 1)
  ∧ rockets (ingestAll emptyWorld
               [speedDecreased 7 3 (whole 500); launched 7 1 500;
                speedIncreased 7 2 (whole 3000)]) !! 7%N
    = Some (Rocket.mk 7 "Falcon-9" 3000 "ARTEMIS" "active" None (Some 3) (Some 3000)).
Proof. vm_compute. repeat split; reflexivity. Qed.

Example exploded_scenario :
  rockets (ingestAll emptyWorld [launched 7 1 500; exploded 7 2]) !! 7%N
  = Some (Rocket.mk 7 "Falcon-9" 500 "ARTEMIS" "exploded"
            (Some "PRESSURE_VESSEL_FAILURE") (Some 2) (Some 4000)).
Proof. vm_compute. reflexivity. Qed.

(** ** The state transition function *)

Lemma wrap_int_id z : int_range z → wrap_int z = z.
Proof.
  unfold int_range, int_min, int_max, wrap_int. intros Hz.
  rewrite Z.mod_small; lia.
Qed.

Lemma wrap_int_range z : int_range (wrap_int z).
Proof.
  unfold int_range, int_min, int_max, wrap_int.
  pose proof (Z.mod_pos_bound (z + 2 ^ 63) (2 ^ 64)). lia.
Qed.

Lemma wrap_int_add_sub s k : int_range s → wrap_int (wrap_int (s + k) - k) = s.
Proof.
  unfold int_range, int_min, int_max, wrap_int. intros Hs.
  replace ((s + k + 2 ^ 63) mod 2 ^ 64 - 2 ^ 63 - k + 2 ^ 63)
    with ((s + k + 2 ^ 63) mod 2 ^ 64 - k) by lia.
  rewrite Zminus_mod_idemp_l.
  replace (s + k + 2 ^ 63 - k) with (s + 2 ^ 63) by lia.
  rewrite Z.mod_small; lia.
Qed.

(** Whatever the kind and the payload, the rocket leaves [applyMessage]
    with the cursor of the message. *)
Lemma applyMessage_cursor rocket msg :
  Rocket.LastMessageNumber (applyMessage rocket msg).1 = Some (number_of msg)
  ∧ Rocket.LastMessageTime (applyMessage rocket msg).1
    = Some (Metadata.MessageTime (Message.Metadata msg)).
Proof.
  unfold applyMessage.
  repeat case_decide; simpl;
    repeat (match goal with
            | |- context [assert_float64 ?x] => destruct (assert_float64 x) as [? []]
            | |- context [assert_string ?x] => destruct (assert_string x) as [? []]
            end; simpl); auto.
Qed.

Lemma applyMessage_channel rocket msg :
  Rocket.Channel (applyMessage rocket msg).1 = Rocket.Channel rocket.
Proof.
  unfold applyMessage.
  repeat case_decide; simpl;
    repeat (match goal with
            | |- context [assert_float64 ?x] => destruct (assert_float64 x) as [? []]
            | |- context [assert_string ?x] => destruct (assert_string x) as [? []]
            end; simpl); auto.
Qed.

(** The error of [applyMessage] is decided by the kind and the payload. *)
Lemma applyMessage_error_independent rocket1 rocket2 msg :
  (applyMessage rocket1 msg).2 = (applyMessage rocket2 msg).2.
Proof.
  unfold applyMessage.
  repeat case_decide; simpl;
    repeat (match goal with
            | |- context [assert_float64 ?x] => destruct (assert_float64 x) as [? []]
            | |- context [assert_string ?x] => destruct (assert_string x) as [? []]
            end; simpl); auto.
Qed.

(** C7: [applyMessage] sets [LastMessageNumber] and [LastMessageTime] to the
    number and the time of the incoming message before it looks at the
    kind: the rocket it leaves behind carries them in every case, so in
    particular after every successful application, and a kind outside the
    five known ones is answered with the unknown-kind error. *)
Theorem applyMessage_cursor_then_dispatch (rocket : Rocket.t) (msg : Message.t) :
  Rocket.LastMessageNumber (applyMessage rocket msg).1 = Some (number_of msg)
  ∧ Rocket.LastMessageTime (applyMessage rocket msg).1
    = Some (Metadata.MessageTime (Message.Metadata msg))
  ∧ (∀ rocket', applyMessage rocket msg = (rocket', None) →
       Rocket.LastMessageNumber rocket' = Some (number_of msg)
       ∧ Rocket.LastMessageTime rocket'
         = Some (Metadata.MessageTime (Message.Metadata msg)))
  ∧ (kind_of msg ∉ known_kinds →
       applyMessage rocket msg
       = (set_cursor rocket msg, Some (ErrorString "unknown message type"))).
Proof.
  destruct (applyMessage_cursor rocket msg) as [Hn Ht].
  split; [exact Hn|]. split; [exact Ht|]. split.
  - intros rocket' Heq. rewrite Heq in Hn, Ht. auto.
  - intros Hkind. unfold known_kinds in Hkind.
    rewrite !not_elem_of_cons in Hkind.
    destruct Hkind as (H1 & H2 & H3 & H4 & H5 & _).
    unfold applyMessage. repeat case_decide; congruence.
Qed.

Lemma applyMessage_cursor_then_dispatch_witness :
  applyMessage (newRocket 7) (teleported 7 4)
  = (set_cursor (newRocket 7) (teleported 7 4),
     Some (ErrorString "unknown message type")).
Proof.
  apply (applyMessage_cursor_then_dispatch (newRocket 7) (teleported 7 4)).
  unfold known_kinds. rewrite !not_elem_of_cons.
  repeat split; try (vm_compute; discriminate). apply not_elem_of_nil.
Defined.

(** C3, as stated, fails: a launch message applied to an exploded rocket
    makes it active again. *)
Lemma launch_revives_exploded :
  Rocket.Status explodedRocket = "exploded"
  ∧ (applyMessage explodedRocket (launched 7 3 500)).2 = None
  ∧ Rocket.Status (applyMessage explodedRocket (launched 7 3 500)).1 = "active".
Proof. vm_compute. repeat split; reflexivity. Qed.

(** C3, amended: applied to an exploded rocket, a message of any kind
    other than the launch leaves the status exploded, whether the
    application succeeds or fails; a launch message, whatever its payload
    and whatever the rocket it is applied to, is accepted and leaves the
    status active. *)
Theorem exploded_stays_exploded (rocket : Rocket.t) (msg : Message.t) :
  (Rocket.Status rocket = "exploded" →
   kind_of msg ≠ "RocketLaunched" →
   Rocket.Status (applyMessage rocket msg).1 = "exploded")
  ∧ (kind_of msg = "RocketLaunched" →
     (applyMessage rocket msg).2 = None
     ∧ Rocket.Status (applyMessage rocket msg).1 = "active").
Proof.
  split.
  - intros Hst Hkind. unfold applyMessage.
    repeat case_decide; try congruence; simpl;
      repeat (match goal with
              | |- context [assert_float64 ?x] => destruct (assert_float64 x) as [? []]
              | |- context [assert_string ?x] => destruct (assert_string x) as [? []]
              end; simpl); auto.
  - intros Hkind. unfold applyMessage. by rewrite decide_True.
Qed.

Lemma exploded_stays_exploded_witness :
  Rocket.Status (applyMessage explodedRocket (speedIncreased 7 3 (whole 10))).1
  = "exploded"
  ∧ (applyMessage explodedRocket (message 7 3 1000 "RocketLaunched" [])).2 = None
  ∧ Rocket.Status (applyMessage explodedRocket (message 7 3 1000 "RocketLaunched" [])).1
    = "active".
Proof.
  split.
  - apply (exploded_stays_exploded explodedRocket (speedIncreased 7 3 (whole 10)));
      [reflexivity | vm_compute; discriminate].
  - apply (exploded_stays_exploded explodedRocket (message 7 3 1000 "RocketLaunched" [])).
    reflexivity.
Defined.

(** C8: on a rocket whose speed is a Go int, a speed increase by [X]
    followed by a speed decrease by the same [X] are both accepted and
    leave the speed exactly as it was, for every [float64] [X]. *)
Theorem speed_additivity (rocket : Rocket.t) (up down : Message.t) (X : float64) :
  int_range (Rocket.Speed rocket) →
  kind_of up = "RocketSpeedIncreased" →
  Message.Message up !! "by" = Some (JNumber X) →
  kind_of down = "RocketSpeedDecreased" →
  Message.Message down !! "by" = Some (JNumber X) →
  ∃ rocket1 rocket2,
    applyMessage rocket up = (rocket1, None)
    ∧ applyMessage rocket1 down = (rocket2, None)
    ∧ Rocket.Speed rocket2 = Rocket.Speed rocket.
Proof.
  intros Hrange Hup Hby Hdown Hby'.
  eexists _, _. split; [|split].
  - unfold applyMessage. rewrite Hup, Hby. simpl. reflexivity.
  - unfold applyMessage. rewrite Hdown, Hby'. simpl. reflexivity.
  - simpl. apply wrap_int_add_sub, Hrange.
Qed.

Lemma speed_additivity_witness :
  ∃ rocket1 rocket2,
    applyMessage launchedRocket (speedIncreased 7 2 (whole 3000)) = (rocket1, None)
    ∧ applyMessage rocket1 (speedDecreased 7 3 (whole 3000)) = (rocket2, None)
    ∧ Rocket.Speed rocket2 = Rocket.Speed launchedRocket.
Proof.
  apply (speed_additivity launchedRocket
           (speedIncreased 7 2 (whole 3000)) (speedDecreased 7 3 (whole 3000))
           (whole 3000));
    [vm_compute; split; discriminate | reflexivity..].
Defined.

(** ** The loop of the reconcile cycle *)

Lemma applyMessage_accepted rocket msg :
  accepted msg → applyMessage rocket msg = ((applyMessage rocket msg).1, None).
Proof.
  intros Hacc. specialize (Hacc rocket).
  destruct (applyMessage rocket msg) as [rocket' err]. simpl in *. by subst.
Qed.

Lemma applyMessage_rejected rocket msg :
  rejected msg → ∃ err, applyMessage rocket msg = ((applyMessage rocket msg).1, Some err).
Proof.
  intros Hrej. specialize (Hrej rocket).
  destruct (applyMessage rocket msg) as [rocket' [err|]]; simpl in *; [eauto|done].
Qed.

Lemma accepted_or_rejected msg : accepted msg ∨ rejected msg.
Proof.
  destruct (applyMessage (newRocket 0) msg).2 as [err|] eqn:Herr.
  - right. intros rocket.
    rewrite (applyMessage_error_independent rocket (newRocket 0)), Herr. done.
  - left. intros rocket.
    by rewrite (applyMessage_error_independent rocket (newRocket 0)).
Qed.

Lemma stateAfter_snoc rocket msgs msg :
  stateAfter rocket (msgs ++ [msg]) = (applyMessage (stateAfter rocket msgs) msg).1.
Proof. unfold stateAfter. by rewrite foldl_app. Qed.

Lemma cursorAfter_snoc cursor msgs msg :
  cursorAfter cursor (msgs ++ [msg]) = number_of msg.
Proof. unfold cursorAfter. by rewrite foldl_app. Qed.

Lemma stateAfter_channel rocket msgs :
  Rocket.Channel (stateAfter rocket msgs) = Rocket.Channel rocket.
Proof.
  revert rocket. induction msgs as [|msg msgs IH]; intros rocket; [done|].
  simpl. by rewrite IH, applyMessage_channel.
Qed.

Lemma stateAfter_cursor rocket cursor msgs :
  Rocket.LastMessageNumber rocket = Some cursor →
  Rocket.LastMessageNumber (stateAfter rocket msgs) = Some (cursorAfter cursor msgs).
Proof.
  revert rocket cursor. induction msgs as [|msg msgs IH]; intros rocket cursor Hc; [done|].
  simpl. apply IH, applyMessage_cursor.
Qed.

Lemma applyEach_accepted rocket msgs :
  Forall accepted msgs → applyEach rocket msgs = (stateAfter rocket msgs, None).
Proof.
  revert rocket. induction msgs as [|msg msgs IH]; intros rocket Hacc; [done|].
  inversion_clear Hacc as [|? ? Hmsg Hrest]. simpl.
  rewrite (applyMessage_accepted rocket msg Hmsg). by apply IH.
Qed.

(** The loop applies a run of expected, accepted rows and goes on with
    what follows. *)
Lemma foldMessages_consecutive rocket cursor applied rest :
  Rocket.LastMessageNumber rocket = Some cursor →
  consecutiveFrom cursor applied →
  Forall accepted applied →
  foldMessages rocket (applied ++ rest) = foldMessages (stateAfter rocket applied) rest.
Proof.
  revert rocket cursor.
  induction applied as [|msg applied IH]; intros rocket cursor Hc Hcons Hacc; [done|].
  destruct Hcons as [Hnum Hcons]. inversion_clear Hacc as [|? ? Hmsg Hrest].
  simpl. rewrite Hc. rewrite decide_True by done.
  rewrite (applyMessage_accepted rocket msg Hmsg).
  apply (IH _ (number_of msg)); [apply applyMessage_cursor|done..].
Qed.

Lemma foldMessages_gap rocket cursor gap later :
  Rocket.LastMessageNumber rocket = Some cursor →
  number_of gap ≠ wrap_int (cursor + 1) →
  foldMessages rocket (gap :: later) = (rocket, Returned None).
Proof. intros Hc Hgap. simpl. rewrite Hc. by rewrite decide_False. Qed.

Lemma foldMessages_rejected rocket cursor bad later :
  Rocket.LastMessageNumber rocket = Some cursor →
  number_of bad = wrap_int (cursor + 1) →
  rejected bad →
  foldMessages rocket (bad :: later)
  = ((applyMessage rocket bad).1, Returned (Some ProcessMessageError)).
Proof.
  intros Hc Hnum Hrej. simpl. rewrite Hc. rewrite decide_True by done.
  destruct (applyMessage_rejected rocket bad Hrej) as [err ->]. done.
Qed.

(** ** One reconcile cycle *)

Lemma Ingest_no_faults w message :
  Ingest no_faults w message
  = Process no_faults (mkWorld (messages w ++ [message]) (rockets w)) message.
Proof. reflexivity. Qed.

Lemma buildRocketState_accepted channel msgs :
  Forall accepted msgs →
  buildRocketState channel msgs = inl (stateAfter (newRocket channel) msgs).
Proof. intros Hacc. unfold buildRocketState. by rewrite applyEach_accepted. Qed.

Lemma buildRocketState_rejected channel msg :
  rejected msg → ∃ err, buildRocketState channel [msg] = inr err.
Proof.
  intros Hrej. unfold buildRocketState. simpl.
  destruct (applyMessage_rejected (newRocket channel) msg Hrej) as [err ->]. eauto.
Qed.

Lemma filter_after_fresh channel number (log : list Message.t) :
  Forall (λ msg, channel_of msg ≠ channel) log →
  filter (after_number channel number) log = [].
Proof.
  induction 1 as [|msg log Hmsg _ IH]; [done|].
  rewrite filter_cons_False; [done|]. unfold after_number. tauto.
Qed.

(** The fast path: the message carries number 1 and is accepted. *)
Lemma Process_first f w message :
  number_of message = 1 →
  accepted message →
  rocketInHand f w message
  = inl (Some (stateAfter (newRocket (channel_of message)) [message])).
Proof.
  intros Hnum Hacc. unfold rocketInHand. rewrite decide_True by done.
  rewrite buildRocketState_accepted; [done|]. by constructor.
Qed.

Lemma Process_first_rejected f w message :
  number_of message = 1 →
  rejected message →
  Process f w message = (w, Returned (Some ProcessMessageError)).
Proof.
  intros Hnum Hrej. unfold Process, rocketInHand. rewrite decide_True by done.
  destruct (buildRocketState_rejected (channel_of message) message Hrej) as [err ->].
  done.
Qed.

(** A message that is not the first of its channel, while the channel has
    no projection: the call reports success and writes nothing. *)
Lemma Process_no_projection f w message :
  number_of message ≠ 1 →
  rockets w !! channel_of message = None →
  Process f w message = (w, Returned None).
Proof.
  intros Hnum Hnone. unfold Process, rocketInHand, FindByChannel.
  rewrite decide_False by done. rewrite Hnone. by destruct (find_one_fails f).
Qed.

(** The cycle in full when no storage call fails. *)
Lemma Process_no_faults w message rocket cursor :
  rocketInHand no_faults w message = inl (Some rocket) →
  Rocket.LastMessageNumber rocket = Some cursor →
  Process no_faults w message
  = match foldMessages rocket
            (merge_sort number_le
               (filter (after_number (channel_of message) cursor) (messages w))) with
    | (rocket', Returned None) =>
        (mkWorld (messages w) (<[Rocket.Channel rocket' := rocket']> (rockets w)),
         Returned None)
    | (_, out) => (w, out)
    end.
Proof.
  intros Hhand Hc. unfold Process. rewrite Hhand, Hc. simpl.
  destruct (foldMessages _ _) as [rocket' [[err|]|]]; done.
Qed.

(** C2: the loop applies a row only while it carries the number right
    after the cursor: once the expected, accepted rows [applied] are
    folded, a row [gap] with any other number ends the loop, and whatever
    comes [later] in the list is left alone. In particular, on a channel
    without history, after messages 1 and 3 were ingested (in either
    order) the stored projections are those after message 1 alone. *)
Theorem no_gap_skip :
  (∀ rocket cursor applied gap later,
     Rocket.LastMessageNumber rocket = Some cursor →
     consecutiveFrom cursor applied →
     Forall accepted applied →
     number_of gap ≠ wrap_int (cursorAfter cursor applied + 1) →
     foldMessages rocket (applied ++ gap :: later)
     = (stateAfter rocket applied, Returned None))
  ∧ (∀ w m1 m3,
       channelFresh (channel_of m1) w →
       channel_of m3 = channel_of m1 →
       number_of m1 = 1 →
       number_of m3 = 3 →
       rockets (ingestAll w [m1; m3]) = rockets (ingestAll w [m1])
       ∧ rockets (ingestAll w [m3; m1]) = rockets (ingestAll w [m1])).
Proof.
  split.
  - intros rocket cursor applied gap later Hc Hcons Hacc Hgap.
    rewrite (foldMessages_consecutive rocket cursor) by done.
    apply (foldMessages_gap _ (cursorAfter cursor applied)); [|done].
    by apply stateAfter_cursor.
  - intros w m1 m3 [Hlog Hstore] Hch H1 H3.
    unfold ingestAll. simpl. rewrite !Ingest_no_faults.
    destruct (accepted_or_rejected m1) as [Hacc|Hrej].
    + pose proof (Process_first no_faults) as Hfast.
      remember (stateAfter (newRocket (channel_of m1)) [m1]) as r1 eqn:Hr1.
      assert (Rocket.LastMessageNumber r1 = Some 1) as Hcur.
      { subst r1. simpl. rewrite <- H1. apply applyMessage_cursor. }
      assert (Rocket.Channel r1 = channel_of m1) as Hchan
        by (subst r1; apply stateAfter_channel).
      assert (number_of m3 ≠ wrap_int (1 + 1)) as Hgap by (rewrite H3; done).
      assert (after_number (channel_of m1) 1 m3) as Hm3.
      { split; [done|]. rewrite H3. done. }
      assert (¬ after_number (channel_of m1) 1 m1) as Hm1.
      { intros [_ ?]. lia. }
      assert (∀ w', rocketInHand no_faults w' m1 = inl (Some r1)) as Hhand1.
      { intros w'. subst r1. by apply Hfast. }
      rewrite (Process_no_faults _ m1 r1 1) by done. simpl.
      rewrite filter_app, (filter_after_fresh _ _ _ Hlog).
      rewrite filter_cons_False, filter_nil by done. simpl.
      rewrite Hchan. split.
      * rewrite (Process_no_faults _ m3 r1 1); simpl.
        -- rewrite Hch.
           rewrite <- (assoc_L (++)), filter_app, (filter_after_fresh _ _ _ Hlog).
           simpl. rewrite filter_cons_False, filter_cons_True, filter_nil by done.
           replace (merge_sort number_le [m3]) with [m3] by done.
           rewrite (foldMessages_gap _ 1) by done. simpl.
           rewrite Hchan. by rewrite insert_insert_eq.
        -- unfold rocketInHand. rewrite decide_False by lia.
           unfold FindByChannel. simpl. rewrite Hch. by rewrite lookup_insert_eq.
        -- done.
      * rewrite (Process_no_projection _ _ m3); [|lia|by rewrite Hch]. simpl.
        rewrite (Process_no_faults _ m1 r1 1) by done. simpl.
        rewrite <- (assoc_L (++)), filter_app, (filter_after_fresh _ _ _ Hlog).
        simpl. rewrite filter_cons_True, filter_cons_False, filter_nil by done.
        replace (merge_sort number_le [m3]) with [m3] by done.
        rewrite (foldMessages_gap _ 1) by done. simpl.
        by rewrite Hchan.
    + rewrite (Process_first_rejected _ _ m1) by done. simpl. split.
      * rewrite (Process_no_projection _ _ m3); [done|lia|by rewrite Hch].
      * rewrite (Process_no_projection _ _ m3); [|lia|by rewrite Hch]. simpl.
        by rewrite (Process_first_rejected _ _ m1).
Qed.

Lemma no_gap_skip_witness :
  foldMessages launchedRocket
    ([speedIncreased 7 2 (whole 3000)] ++ speedDecreased 7 4 (whole 500) :: [exploded 7 3])
  = (stateAfter launchedRocket [speedIncreased 7 2 (whole 3000)], Returned None)
  ∧ rockets (ingestAll emptyWorld [firstLaunch; speedDecreased 7 3 (whole 500)])
    = rockets (ingestAll emptyWorld [firstLaunch])
  ∧ rockets (ingestAll emptyWorld [speedDecreased 7 3 (whole 500); firstLaunch])
    = rockets (ingestAll emptyWorld [firstLaunch]).
Proof.
  destruct no_gap_skip as [Hfold Hscenario]. split.
  - apply (Hfold launchedRocket 1).
    + reflexivity.
    + split; [reflexivity|exact I].
    + constructor; [|constructor]. intros rocket. reflexivity.
    + vm_compute. discriminate.
  - apply (Hscenario emptyWorld firstLaunch (speedDecreased 7 3 (whole 500))).
    + split; [constructor|reflexivity].
    + reflexivity.
    + reflexivity.
    + reflexivity.
Defined.

(** C4, as stated, fails: the first message ever seen for channel 7
    carries number 3; it is logged, the call reports success, and no
    projection exists afterwards. *)
Lemma first_message_without_projection :
  channelFresh 7 emptyWorld
  ∧ Ingest no_faults emptyWorld (speedDecreased 7 3 (whole 500))
    = (mkWorld [speedDecreased 7 3 (whole 500)] ∅, Returned None)
  ∧ rockets (Ingest no_faults emptyWorld (speedDecreased 7 3 (whole 500))).1 !! 7%N
    = None.
Proof. split; [split; [constructor|reflexivity]|]. vm_compute. split; reflexivity. Qed.

(** C4, amended: on a channel without history and with the storage calls
    succeeding, the first message creates and persists a projection
    exactly when it carries number 1 and [applyMessage] accepts it: the
    projection is the fresh rocket with that message applied. A first
    message with another number is logged and no projection is created; a
    first message numbered 1 that is refused is logged and the call fails
    without a projection. *)
Theorem projection_created_by_message_one (w : World) (message : Message.t) :
  channelFresh (channel_of message) w →
  (number_of message = 1 → accepted message →
     Ingest no_faults w message
     = (mkWorld (messages w ++ [message])
          (<[channel_of message := stateAfter (newRocket (channel_of message)) [message]]>
             (rockets w)),
        Returned None))
  ∧ (number_of message = 1 → rejected message →
       Ingest no_faults w message
       = (mkWorld (messages w ++ [message]) (rockets w),
          Returned (Some ProcessMessageError)))
  ∧ (number_of message ≠ 1 →
       Ingest no_faults w message
       = (mkWorld (messages w ++ [message]) (rockets w), Returned None)).
Proof.
  intros [Hlog Hstore]. rewrite Ingest_no_faults. split; [|split].
  - intros Hnum Hacc.
    remember (stateAfter (newRocket (channel_of message)) [message]) as r1 eqn:Hr1.
    assert (Rocket.LastMessageNumber r1 = Some 1) as Hcur.
    { subst r1. simpl. rewrite <- Hnum. apply applyMessage_cursor. }
    assert (Rocket.Channel r1 = channel_of message) as Hchan
      by (subst r1; apply stateAfter_channel).
    rewrite (Process_no_faults _ message r1 1);
      [|subst r1; by apply Process_first|done].
    simpl. rewrite filter_app, (filter_after_fresh _ _ _ Hlog).
    rewrite filter_cons_False, filter_nil; [|intros [_ ?]; lia].
    simpl. by rewrite Hchan.
  - intros Hnum Hrej. by apply Process_first_rejected.
  - intros Hnum. by apply Process_no_projection.
Qed.

Lemma projection_created_by_message_one_witness :
  Ingest no_faults emptyWorld firstLaunch
  = (mkWorld [firstLaunch] (<[7%N := launchedRocket]> ∅), Returned None).
Proof.
  apply (projection_created_by_message_one emptyWorld firstLaunch).
  - split; [constructor|reflexivity].
  - reflexivity.
  - intros rocket. reflexivity.
Defined.

(** C5: when the fold fails nothing is written. If the rows fetched after
    the cursor start with expected, accepted rows [applied] followed by an
    expected row [bad] that [applyMessage] refuses, the call returns the
    processing error and the world is the one it started from: the rows
    applied in memory before [bad] are not persisted. The same holds when
    the message of the fast path is itself refused. *)
Theorem failed_fold_writes_nothing (f : Faults) (w : World) (message : Message.t) :
  (∀ rocket cursor applied bad later,
     rocketInHand f w message = inl (Some rocket) →
     Rocket.LastMessageNumber rocket = Some cursor →
     FindAfterNumber f w (channel_of message) cursor = inl (applied ++ bad :: later) →
     consecutiveFrom cursor (applied ++ [bad]) →
     Forall accepted applied →
     rejected bad →
     Process f w message = (w, Returned (Some ProcessMessageError)))
  ∧ (number_of message = 1 → rejected message →
       Process f w message = (w, Returned (Some ProcessMessageError))).
Proof.
  split; [|by apply Process_first_rejected].
  intros rocket cursor applied bad later Hhand Hc Hfind Hcons Hacc Hrej.
  unfold Process. rewrite Hhand, Hc, Hfind.
  assert (consecutiveFrom cursor applied
          ∧ number_of bad = wrap_int (cursorAfter cursor applied + 1)) as [Hcons' Hbad].
  { clear -Hcons. revert cursor Hcons.
    induction applied as [|msg applied IH]; intros cursor Hcons.
    - destruct Hcons as [? _]. by split.
    - destruct Hcons as [Hmsg Hcons]. destruct (IH _ Hcons) as [? ?].
      by repeat split. }
  rewrite (foldMessages_consecutive rocket cursor) by done.
  rewrite (foldMessages_rejected _ (cursorAfter cursor applied)); try done.
  by apply stateAfter_cursor.
Qed.

Lemma failed_fold_writes_nothing_witness :
  Process no_faults stalledWorld (exploded 7 4)
  = (stalledWorld, Returned (Some ProcessMessageError)).
Proof.
  apply (failed_fold_writes_nothing no_faults stalledWorld (exploded 7 4)) with
    (rocket := launchedRocket) (cursor := 1)
    (applied := [speedIncreased 7 2 (whole 3000)]) (bad := teleported 7 3)
    (later := [exploded 7 4]).
  - reflexivity.
  - reflexivity.
  - reflexivity.
  - repeat split; reflexivity.
  - constructor; [|constructor]. intros rocket. reflexivity.
  - intros rocket. vm_compute. discriminate.
Defined.

(** C6: what the code does when the read of the projection fails in the
    driver, for a message that is not numbered 1: the error is logged, the
    rocket is nil, and the call reports success without touching the
    store, exactly as when the channel has no projection. *)
Theorem read_failure_reported_as_success (w : World) (message : Message.t) :
  number_of message ≠ 1 →
  (FindByChannel (mkFaults false true false false) w (channel_of message)).2
  = Some DriverError
  ∧ Ingest (mkFaults false true false false) w message
    = (mkWorld (messages w ++ [message]) (rockets w), Returned None).
Proof.
  intros Hnum. split; [reflexivity|].
  unfold Ingest, Store, Process, rocketInHand, FindByChannel. simpl.
  by rewrite decide_False.
Qed.

Lemma read_failure_reported_as_success_witness :
  (FindByChannel (mkFaults false true false false) launchedWorld 7).2 = Some DriverError
  ∧ Ingest (mkFaults false true false false) launchedWorld
      (speedIncreased 7 2 (whole 3000))
    = (mkWorld (messages launchedWorld ++ [speedIncreased 7 2 (whole 3000)])
         (rockets launchedWorld),
       Returned None).
Proof.
  apply (read_failure_reported_as_success launchedWorld (speedIncreased 7 2 (whole 3000))).
  vm_compute. discriminate.
Defined.

(** ** What every stored projection is *)

Lemma buildRocketState_inl channel msgs rocket :
  buildRocketState channel msgs = inl rocket ↔
  Forall accepted msgs ∧ rocket = stateAfter (newRocket channel) msgs.
Proof.
  split.
  - unfold buildRocketState. generalize (newRocket channel) as r0.
    induction msgs as [|msg msgs IH]; intros r0 Hbuild; simpl in *.
    + split; [constructor|congruence].
    + destruct (applyMessage r0 msg) as [r1 [err|]] eqn:Happ; [done|].
      destruct (IH r1 Hbuild) as [Hacc ->]. split; [|done].
      constructor; [|done]. intros r.
      by rewrite (applyMessage_error_independent r r0), Happ.
  - intros [Hacc ->]. by apply buildRocketState_accepted.
Qed.

Lemma numberedFromOne_snoc msgs msg :
  numberedFromOne msgs →
  number_of msg = Z.of_nat (length msgs) + 1 →
  numberedFromOne (msgs ++ [msg]).
Proof.
  intros Hnum Hmsg i x Hi.
  destruct (decide (i < length msgs)%nat) as [Hlt|Hge].
  - rewrite lookup_app_l in Hi by done. by apply Hnum.
  - rewrite lookup_app_r in Hi by lia.
    destruct (i - length msgs)%nat as [|n] eqn:Hdiff; simpl in Hi; [|done].
    inversion Hi; subst x. rewrite Hmsg. lia.
Qed.

Lemma numberedFromOne_NoDup msgs :
  numberedFromOne msgs → NoDup (number_of <$> msgs).
Proof.
  intros Hnum. apply NoDup_alt. intros i j n Hi Hj.
  rewrite list_lookup_fmap in Hi, Hj.
  destruct (msgs !! i) as [x|] eqn:Hx; [|done].
  destruct (msgs !! j) as [y|] eqn:Hy; [|done].
  simpl in *. apply Hnum in Hx, Hy. simplify_eq. lia.
Qed.

(** A rocket folded from rows numbered from one stands at their count. *)
Lemma numbered_cursor channel applied :
  applied ≠ [] →
  numberedFromOne applied →
  Rocket.LastMessageNumber (stateAfter (newRocket channel) applied)
  = Some (Z.of_nat (length applied)).
Proof.
  intros Hne Hnum.
  induction applied as [|x l _] using rev_ind; [done|].
  rewrite stateAfter_snoc.
  destruct (applyMessage_cursor (stateAfter (newRocket channel) l) x) as [-> _].
  f_equal. rewrite (Hnum (length l) x).
  - rewrite length_app. simpl. lia.
  - by rewrite lookup_app_r, Nat.sub_diag.
Qed.

(** The count of rows numbered from one is the number of the last. *)
Lemma numbered_count_range applied :
  applied ≠ [] →
  numberedFromOne applied →
  Forall wellFormed applied →
  int_range (Z.of_nat (length applied)).
Proof.
  intros Hne Hnum Hwf.
  induction applied as [|x l _] using rev_ind; [done|].
  rewrite Forall_app, Forall_singleton in Hwf. destruct Hwf as [_ Hx].
  unfold wellFormed in Hx. rewrite (Hnum (length l) x) in Hx.
  - rewrite length_app. simpl.
    by replace (Z.of_nat (length l + 1)) with (Z.of_nat (length l) + 1) by lia.
  - by rewrite lookup_app_r, Nat.sub_diag.
Qed.

Lemma foldOfLog_cursor w channel rocket :
  foldOfLog w channel rocket → is_Some (Rocket.LastMessageNumber rocket).
Proof.
  intros (applied & Hne & Hnum & _ & Hbuild).
  apply buildRocketState_inl in Hbuild as [_ ->].
  rewrite numbered_cursor by done. eauto.
Qed.

Lemma foldOfLog_channel w channel rocket :
  foldOfLog w channel rocket → Rocket.Channel rocket = channel.
Proof.
  intros (applied & _ & _ & _ & Hbuild).
  apply buildRocketState_inl in Hbuild as [_ ->]. apply stateAfter_channel.
Qed.

Lemma foldOfLog_mono w w' channel rocket :
  messages w ⊆ messages w' →
  foldOfLog w channel rocket → foldOfLog w' channel rocket.
Proof.
  intros Hsub (applied & Hne & Hnum & Hlog & Hbuild).
  exists applied. repeat split; try done.
  eapply Forall_impl; [exact Hlog|]. intros msg [Hin Hch]. split; [|done].
  by apply Hsub.
Qed.

(** The loop keeps a rocket that is a fold of the log a fold of the log,
    as long as the rows it is given are logged rows of the channel with
    numbers a Go int can hold and above one. *)
Lemma foldMessages_foldOfLog w channel msgs rocket rocket' :
  Forall wellFormed (messages w) →
  Forall (λ msg, msg ∈ messages w ∧ channel_of msg = channel ∧ 1 < number_of msg) msgs →
  foldOfLog w channel rocket →
  foldMessages rocket msgs = (rocket', Returned None) →
  foldOfLog w channel rocket'.
Proof.
  intros Hwf. revert rocket.
  induction msgs as [|msg msgs IH]; intros rocket Hmsgs Hfold Hloop; simpl in Hloop.
  { by simplify_eq. }
  inversion_clear Hmsgs as [|? ? (Hin & Hch & Hgt) Hrest].
  destruct Hfold as (applied & Hne & Hnum & Hlog & Hbuild).
  pose proof Hbuild as Hbuild'.
  apply buildRocketState_inl in Hbuild' as [Hacc ->].
  rewrite numbered_cursor in Hloop by done.
  case_decide as Hexp; [|simplify_eq; by exists applied].
  destruct (applyMessage _ msg) as [r1 [err|]] eqn:Happ; [done|].
  (* the cursor is the number of a logged row: the successor does not wrap *)
  assert (int_range (Z.of_nat (length applied))) as Hrange.
  { apply numbered_count_range; [done..|].
    eapply Forall_impl; [exact Hlog|]. intros m [Hm _].
    rewrite Forall_forall in Hwf. by apply Hwf. }
  assert (number_of msg = Z.of_nat (length applied) + 1) as Hmsg.
  { destruct (decide (Z.of_nat (length applied) = int_max)) as [Hmax|Hmax].
    - rewrite Hmax in Hexp.
      replace (wrap_int (int_max + 1)) with int_min in Hexp by reflexivity.
      unfold int_min in Hexp. lia.
    - rewrite Hexp. apply wrap_int_id.
      unfold int_range, int_min, int_max in *. lia. }
  apply (IH r1); [done| |done].
  exists (applied ++ [msg]). split; [by destruct applied|].
  split; [by apply numberedFromOne_snoc|]. split.
  - apply Forall_app. split; [done|]. by apply Forall_singleton.
  - apply buildRocketState_inl. split.
    + apply Forall_app. split; [done|]. apply Forall_singleton.
      intros r.
      by rewrite (applyMessage_error_independent r
                    (stateAfter (newRocket channel) applied)), Happ.
    + by rewrite stateAfter_snoc, Happ.
Qed.

Lemma foldMessages_no_panic rocket msgs :
  is_Some (Rocket.LastMessageNumber rocket) →
  (foldMessages rocket msgs).2 ≠ Panicked.
Proof.
  revert rocket. induction msgs as [|msg msgs IH]; intros rocket [last Hlast]; [done|].
  simpl. rewrite Hlast. case_decide; [|done].
  destruct (applyMessage rocket msg) as [r1 [err|]] eqn:Happ; [done|].
  apply IH. replace r1 with (applyMessage rocket msg).1 by by rewrite Happ.
  destruct (applyMessage_cursor rocket msg) as [-> _]. eauto.
Qed.

Lemma foldOfLog_cursor_pos w channel rocket :
  foldOfLog w channel rocket →
  ∃ last, Rocket.LastMessageNumber rocket = Some last ∧ 1 <= last.
Proof.
  intros (applied & Hne & Hnum & _ & Hbuild).
  apply buildRocketState_inl in Hbuild as [_ ->].
  rewrite numbered_cursor by done. eexists. split; [done|].
  destruct applied; [done|]. simpl. lia.
Qed.

Lemma FindAfterNumber_rows f w channel number msgs :
  FindAfterNumber f w channel number = inl msgs →
  Forall (λ msg, msg ∈ messages w ∧ channel_of msg = channel ∧ number < number_of msg)
    msgs.
Proof.
  unfold FindAfterNumber. destruct (find_fails f); [done|].
  intros [= <-]. apply Forall_forall. intros msg Hmsg.
  rewrite merge_sort_Permutation in Hmsg.
  apply list_elem_of_filter in Hmsg as [[Hch Hgt] Hin]. done.
Qed.

(** The rocket [Process] works on is a fold of the log, the message
    being logged. *)
Lemma rocketInHand_foldOfLog f w message rocket :
  worldInvariant w →
  message ∈ messages w →
  rocketInHand f w message = inl (Some rocket) →
  foldOfLog w (channel_of message) rocket.
Proof.
  intros [Hwf Hstore] Hin. unfold rocketInHand. case_decide as Hnum.
  - destruct (buildRocketState _ _) as [r|err] eqn:Hbuild; [|done].
    intros [= <-]. exists [message]. split; [done|]. split; [|split; [|done]].
    + intros [|i] msg Hi; simpl in Hi; [|done]. by simplify_eq.
    + by apply Forall_singleton.
  - unfold FindByChannel. destruct (find_one_fails f); [done|].
    destruct (rockets w !! channel_of message) as [r|] eqn:Hlook; [|done].
    intros [= <-]. by apply Hstore.
Qed.

Lemma Upsert_invariant f w rocket :
  worldInvariant w →
  foldOfLog w (Rocket.Channel rocket) rocket →
  worldInvariant (Upsert f w rocket).1.
Proof.
  intros [Hwf Hstore] Hfold. unfold Upsert.
  destruct (update_fails f); [done|]. split; [done|].
  intros channel r. simpl. rewrite lookup_insert. case_decide as Hch.
  - intros [= <-]. subst channel. by eapply foldOfLog_mono.
  - intros Hlook. eapply foldOfLog_mono; [|by apply Hstore]. done.
Qed.

Lemma Process_invariant f w message :
  worldInvariant w →
  message ∈ messages w →
  worldInvariant (Process f w message).1 ∧ (Process f w message).2 ≠ Panicked.
Proof.
  intros Hinv Hin. unfold Process.
  destruct (rocketInHand f w message) as [[rocket|]|err] eqn:Hhand; [|done..].
  pose proof (rocketInHand_foldOfLog _ _ _ _ Hinv Hin Hhand) as Hfold.
  destruct (foldOfLog_cursor_pos _ _ _ Hfold) as (last & Hlast & Hpos).
  rewrite Hlast.
  destruct (FindAfterNumber f w (channel_of message) last) as [msgs|err] eqn:Hfind;
    [|done].
  pose proof (foldMessages_no_panic rocket msgs) as Hpanic.
  rewrite Hlast in Hpanic. specialize (Hpanic (ltac:(eauto))).
  destruct (foldMessages rocket msgs) as [rocket' [[err|]|]] eqn:Hloop; [done| |done].
  assert (foldOfLog w (channel_of message) rocket') as Hfold'.
  { destruct Hinv as [Hwf _].
    eapply (foldMessages_foldOfLog w _ msgs rocket); [done| |done..].
    eapply Forall_impl; [by eapply FindAfterNumber_rows|].
    simpl. intros msg (? & ? & ?). repeat split; [done..|lia]. }
  pose proof (Upsert_invariant f w rocket' Hinv) as Hup.
  rewrite (foldOfLog_channel _ _ _ Hfold') in Hup. specialize (Hup Hfold').
  destruct (Upsert f w rocket') as [w' [err|]]; done.
Qed.

(** One [Ingest] keeps the invariant and does not panic. *)
Lemma Ingest_invariant f w message :
  wellFormed message →
  worldInvariant w →
  worldInvariant (Ingest f w message).1 ∧ (Ingest f w message).2 ≠ Panicked.
Proof.
  intros Hmsg [Hwf Hstore]. unfold Ingest, Store.
  destruct (insert_fails f); [done|].
  apply Process_invariant.
  - split; simpl.
    + apply Forall_app. split; [done|]. by apply Forall_singleton.
    + intros channel rocket Hlook.
      eapply foldOfLog_mono; [|by apply Hstore]. simpl. set_solver.
  - simpl. set_solver.
Qed.

Lemma reachable_invariant w : reachable w → worldInvariant w.
Proof.
  induction 1 as [|f w message _ IH Hmsg].
  - split; [constructor|]. intros channel rocket Hlook. simpl in Hlook.
    by rewrite lookup_empty in Hlook.
  - by apply Ingest_invariant.
Qed.

(** ** The cursor of the stored projections *)

Lemma rocketInHand_cursor f w message rocket :
  cursorsSet w →
  rocketInHand f w message = inl (Some rocket) →
  is_Some (Rocket.LastMessageNumber rocket).
Proof.
  intros Hset. unfold rocketInHand. case_decide as Hnum.
  - unfold buildRocketState. simpl.
    destruct (applyMessage (newRocket (channel_of message)) message)
      as [r [err|]] eqn:Happ; [done|].
    intros [= <-]. replace r with (applyMessage (newRocket (channel_of message)) message).1
      by by rewrite Happ.
    destruct (applyMessage_cursor (newRocket (channel_of message)) message) as [-> _].
    eauto.
  - unfold FindByChannel. destruct (find_one_fails f); [done|].
    destruct (rockets w !! channel_of message) as [r|] eqn:Hlook; [|done].
    intros [= <-]. by eapply Hset.
Qed.

Lemma foldMessages_cursor rocket msgs :
  is_Some (Rocket.LastMessageNumber rocket) →
  is_Some (Rocket.LastMessageNumber (foldMessages rocket msgs).1).
Proof.
  revert rocket. induction msgs as [|msg msgs IH]; intros rocket Hsome; [done|].
  simpl. destruct Hsome as [last Hlast]. rewrite Hlast. case_decide; [|simpl; eauto].
  pose proof (applyMessage_cursor rocket msg) as [Hc _].
  destruct (applyMessage rocket msg) as [r1 [err|]]; simpl in *; eauto.
Qed.

Lemma Process_cursorsSet f w message :
  cursorsSet w →
  cursorsSet (Process f w message).1 ∧ (Process f w message).2 ≠ Panicked.
Proof.
  intros Hset. unfold Process.
  destruct (rocketInHand f w message) as [[rocket|]|err] eqn:Hhand; [|done..].
  pose proof (rocketInHand_cursor _ _ _ _ Hset Hhand) as Hsome.
  destruct Hsome as [last Hlast]. rewrite Hlast.
  destruct (FindAfterNumber f w (channel_of message) last) as [msgs|err]; [|done].
  pose proof (foldMessages_no_panic rocket msgs (ltac:(eauto))) as Hpanic.
  pose proof (foldMessages_cursor rocket msgs (ltac:(eauto))) as Hcur.
  destruct (foldMessages rocket msgs) as [rocket' [[err|]|]]; [done| |done].
  unfold Upsert. destruct (update_fails f); [done|]. split; [|done].
  intros channel r. simpl. rewrite lookup_insert. case_decide.
  - by intros [= <-].
  - apply Hset.
Qed.

Lemma Ingest_cursorsSet f w message :
  cursorsSet w →
  cursorsSet (Ingest f w message).1 ∧ (Ingest f w message).2 ≠ Panicked.
Proof.
  intros Hset. unfold Ingest, Store. destruct (insert_fails f); [done|].
  by apply Process_cursorsSet.
Qed.

Lemma reachable_cursorsSet w : reachable w → cursorsSet w.
Proof.
  induction 1 as [|f w message _ IH _].
  - intros channel rocket Hlook. simpl in Hlook. by rewrite lookup_empty in Hlook.
  - by apply Ingest_cursorsSet.
Qed.

(** C10: in every world the service can reach, each stored projection has
    a non-nil [LastMessageNumber], and no further [Ingest], whatever the
    message and whichever storage calls fail, panics on the dereference of
    the cursor. *)
Theorem cursor_never_nil (w : World) :
  reachable w →
  cursorsSet w ∧ ∀ f message, (Ingest f w message).2 ≠ Panicked.
Proof.
  intros Hreach. pose proof (reachable_cursorsSet w Hreach) as Hset.
  split; [done|]. intros f message. by apply Ingest_cursorsSet.
Qed.

Lemma cursor_never_nil_witness :
  cursorsSet launchedWorld
  ∧ ∀ f message, (Ingest f launchedWorld message).2 ≠ Panicked.
Proof.
  apply (cursor_never_nil launchedWorld).
  apply (reachable_ingest no_faults emptyWorld firstLaunch);
    [apply reachable_empty | vm_compute; split; discriminate].
Defined.

(** ** Rows sharing a number *)

(** What the loop leaves is the rocket with the rows of [foldApplied]
    applied. *)
Lemma foldMessages_applied rocket msgs :
  (foldMessages rocket msgs).1 = stateAfter rocket (foldApplied rocket msgs).
Proof.
  revert rocket. induction msgs as [|msg msgs IH]; intros rocket; [done|].
  simpl. destruct (Rocket.LastMessageNumber rocket) as [last|]; [|done].
  case_decide; [|done].
  destruct (applyMessage rocket msg) as [r1 [err|]] eqn:Happ; simpl.
  - by rewrite Happ.
  - rewrite Happ. simpl. apply IH.
Qed.

(** What a successful cycle stores: the rocket it started from (a fresh one
    on the fast path, the stored one otherwise) with the rows of
    [appliedRows] applied. *)
Lemma Process_stores_applied f w message w' :
  Process f w message = (w', Returned None) →
  w' = w
  ∨ ∃ start,
      (if decide (number_of message = 1)
       then start = newRocket (channel_of message)
       else rockets w !! channel_of message = Some start)
      ∧ rockets w'
        = <[Rocket.Channel start := stateAfter start (appliedRows f w message)]>
            (rockets w).
Proof.
  unfold Process, appliedRows.
  destruct (rocketInHand f w message) as [[rocket|]|err] eqn:Hhand;
    [|intros [= <-]; by left|done].
  destruct (Rocket.LastMessageNumber rocket) as [last|]; [|done].
  destruct (FindAfterNumber f w (channel_of message) last) as [msgs|err]; [|done].
  pose proof (foldMessages_applied rocket msgs) as Happlied.
  destruct (foldMessages rocket msgs) as [rocket' [[err|]|]]; [done| |done].
  simpl in Happlied. unfold Upsert. destruct (update_fails f); [done|].
  intros [= <-]. right. simpl. unfold rocketInHand in Hhand.
  case_decide as Hnum.
  - exists (newRocket (channel_of message)). split; [done|].
    destruct (buildRocketState _ _) as [r|err] eqn:Hbuild; [|done].
    apply buildRocketState_inl in Hbuild as [_ ->]. simplify_eq.
    simpl. by rewrite !stateAfter_channel, applyMessage_channel.
  - exists rocket. unfold FindByChannel in Hhand.
    destruct (find_one_fails f); [done|].
    destruct (rockets w !! channel_of message) as [r|] eqn:Hlook; [|done].
    simplify_eq. split; [done|]. simpl. by rewrite stateAfter_channel.
Qed.

Lemma consecutive_numbers_NoDup base (msgs : list Message.t) :
  (∀ i msg, msgs !! i = Some msg → number_of msg = base + Z.of_nat i) →
  NoDup (number_of <$> msgs).
Proof.
  intros Hnum. apply NoDup_alt. intros i j n Hi Hj.
  rewrite list_lookup_fmap in Hi, Hj.
  destruct (msgs !! i) as [x|] eqn:Hx; [|done].
  destruct (msgs !! j) as [y|] eqn:Hy; [|done].
  simpl in *. apply Hnum in Hx, Hy. simplify_eq. lia.
Qed.

(** The rows one call of the loop applies carry the numbers right after
    the cursor, one after the other. *)
Lemma foldApplied_numbers msgs rocket last :
  Rocket.LastMessageNumber rocket = Some last →
  int_range last →
  Forall (λ msg, int_min < number_of msg) msgs →
  ∀ i msg, foldApplied rocket msgs !! i = Some msg →
           number_of msg = last + 1 + Z.of_nat i.
Proof.
  revert rocket last.
  induction msgs as [|x msgs IH]; intros rocket last Hlast Hrange Hmsgs i msg Hi;
    [done|].
  inversion_clear Hmsgs as [|? ? Hx Hrest].
  simpl in Hi. rewrite Hlast in Hi. case_decide as Hexp; [|done].
  assert (number_of x = last + 1) as Hnum.
  { destruct (decide (last = int_max)) as [->|Hmax].
    - replace (wrap_int (int_max + 1)) with int_min in Hexp by reflexivity. lia.
    - rewrite Hexp. apply wrap_int_id.
      unfold int_range, int_min, int_max in *. lia. }
  destruct i as [|i]; simpl in Hi.
  { simplify_eq. lia. }
  destruct (applyMessage rocket x) as [r1 [err|]] eqn:Happ; [done|].
  rewrite (IH r1 (number_of x)) with (i := i) (msg := msg); [lia| | |done..].
  - replace r1 with (applyMessage rocket x).1 by by rewrite Happ.
    apply applyMessage_cursor.
  - rewrite Hexp. apply wrap_int_range.
Qed.

Lemma foldOfLog_cursor_range w channel rocket :
  Forall wellFormed (messages w) →
  foldOfLog w channel rocket →
  ∃ last, Rocket.LastMessageNumber rocket = Some last ∧ int_range last.
Proof.
  intros Hwf (applied & Hne & Hnum & Hlog & Hbuild).
  apply buildRocketState_inl in Hbuild as [_ ->].
  rewrite numbered_cursor by done. eexists. split; [done|].
  apply numbered_count_range; [done..|].
  eapply Forall_impl; [exact Hlog|]. intros m [Hm _].
  rewrite Forall_forall in Hwf. by apply Hwf.
Qed.

(** The rows one reconcile cycle applies carry consecutive numbers. *)
Lemma appliedRows_numbers f w message :
  worldInvariant w →
  ∃ base, ∀ i msg, appliedRows f w message !! i = Some msg →
                   number_of msg = base + Z.of_nat i.
Proof.
  intros [Hwf Hstore]. unfold appliedRows, rocketInHand.
  assert (∀ last msgs, FindAfterNumber f w (channel_of message) last = inl msgs →
                       int_range last →
                       Forall (λ msg, int_min < number_of msg) msgs) as Hrows.
  { intros last msgs Hfind Hrange.
    eapply Forall_impl; [by eapply FindAfterNumber_rows|].
    simpl. intros msg (_ & _ & ?). unfold int_range in Hrange. lia. }
  case_decide as Hnum.
  - exists 1. intros [|i] msg Hi; simpl in Hi; [simplify_eq; lia|].
    destruct (buildRocketState (channel_of message) [message]) as [rocket|err]
      eqn:Hbuild; [|done].
    apply buildRocketState_inl in Hbuild as [_ ->].
    assert (Rocket.LastMessageNumber
              (stateAfter (newRocket (channel_of message)) [message]) = Some 1) as Hc.
    { simpl. rewrite <- Hnum. apply applyMessage_cursor. }
    rewrite Hc in Hi.
    destruct (FindAfterNumber f w (channel_of message) 1) as [msgs|err] eqn:Hfind;
      [|done].
    assert (int_range 1) as Hone by (vm_compute; split; discriminate).
    rewrite (foldApplied_numbers msgs _ 1 Hc Hone (Hrows _ _ Hfind Hone) i msg Hi).
    lia.
  - simpl. unfold FindByChannel. destruct (find_one_fails f); [by exists 0|].
    destruct (rockets w !! channel_of message) as [rocket|] eqn:Hlook; [|by exists 0].
    simpl.
    destruct (foldOfLog_cursor_range _ _ _ Hwf (Hstore _ _ Hlook))
      as (last & Hlast & Hrange).
    rewrite Hlast.
    destruct (FindAfterNumber f w (channel_of message) last) as [msgs|err] eqn:Hfind;
      [|by exists 0].
    exists (last + 1). by apply foldApplied_numbers; [..|eapply Hrows].
Qed.

(** C9, as stated, fails for two rows numbered 1: the second one takes the
    fast path again. Both rows are in the log, each was applied in its own
    cycle, and the stored projection is first the fold of the one, then the
    fold of the other. *)
Lemma duplicate_first_rows_both_applied :
  firstLaunch ≠ secondLaunch
  ∧ channel_of firstLaunch = channel_of secondLaunch
  ∧ number_of firstLaunch = number_of secondLaunch
  ∧ messages relaunchedWorld = [firstLaunch; secondLaunch]
  ∧ appliedRows no_faults (Store no_faults emptyWorld firstLaunch).1 firstLaunch
    = [firstLaunch]
  ∧ appliedRows no_faults (Store no_faults launchedWorld secondLaunch).1 secondLaunch
    = [secondLaunch]
  ∧ rockets launchedWorld !! 7%N = Some (stateAfter (newRocket 7) [firstLaunch])
  ∧ rockets relaunchedWorld !! 7%N = Some (stateAfter (newRocket 7) [secondLaunch])
  ∧ (Rocket.Speed <$> rockets launchedWorld !! 7%N) = Some 500
  ∧ (Rocket.Speed <$> rockets relaunchedWorld !! 7%N) = Some 900.
Proof.
  split; [discriminate|]. vm_compute. repeat split; reflexivity.
Qed.

Lemma afterStore_invariant w message :
  worldInvariant w → wellFormed message → worldInvariant (afterStore w message).
Proof.
  intros [Hwf Hstore] Hmsg. split; simpl.
  - apply Forall_app. split; [done|]. by apply Forall_singleton.
  - intros channel rocket Hlook.
    eapply foldOfLog_mono; [|by apply Hstore]. simpl.
    intros x Hx. apply elem_of_app. by left.
Qed.

(** On the fast path the rows of a cycle are numbered 1, 2, 3, ... *)
Lemma appliedRows_first_numbers f w message :
  number_of message = 1 →
  ∀ (i : nat) msg, appliedRows f w message !! i = Some msg →
                   number_of msg = 1 + Z.of_nat i.
Proof.
  intros Hnum. unfold appliedRows, rocketInHand. rewrite !decide_True by done.
  intros [|i] msg Hi; simpl in Hi; [simplify_eq; lia|].
  destruct (buildRocketState (channel_of message) [message]) as [rocket|err]
    eqn:Hbuild; [|done].
  apply buildRocketState_inl in Hbuild as [_ ->].
  assert (Rocket.LastMessageNumber
            (stateAfter (newRocket (channel_of message)) [message]) = Some 1) as Hc.
  { simpl. rewrite <- Hnum. apply applyMessage_cursor. }
  rewrite Hc in Hi.
  destruct (FindAfterNumber f w (channel_of message) 1) as [msgs|err] eqn:Hfind;
    [|done].
  assert (int_range 1) as Hone by (vm_compute; split; discriminate).
  rewrite (foldApplied_numbers msgs _ 1 Hc Hone) with (i := i) (msg := msg);
    [lia| |done].
  eapply Forall_impl; [by eapply FindAfterNumber_rows|].
  simpl. intros x (_ & _ & ?). unfold int_min. lia.
Qed.

(** Started from the stored projection, the rows of a cycle are numbered
    cursor + 1, cursor + 2, ... *)
Lemma appliedRows_stored_numbers f w message rocket cursor :
  worldInvariant w →
  number_of message ≠ 1 →
  rockets w !! channel_of message = Some rocket →
  Rocket.LastMessageNumber rocket = Some cursor →
  ∀ (i : nat) msg, appliedRows f w message !! i = Some msg →
                   number_of msg = cursor + 1 + Z.of_nat i.
Proof.
  intros [Hwf Hstore] Hnum Hlook Hcursor.
  unfold appliedRows, rocketInHand, FindByChannel. rewrite !decide_False by done.
  simpl. destruct (find_one_fails f); [done|]. rewrite Hlook. simpl. rewrite Hcursor.
  destruct (foldOfLog_cursor_range _ _ _ Hwf (Hstore _ _ Hlook))
    as (last & Hlast & Hrange).
  assert (last = cursor) as -> by congruence.
  destruct (FindAfterNumber f w (channel_of message) cursor) as [msgs|err] eqn:Hfind;
    [|done].
  apply foldApplied_numbers; [done..|].
  eapply Forall_impl; [by eapply FindAfterNumber_rows|].
  simpl. intros x (_ & _ & ?). unfold int_range in Hrange. lia.
Qed.

(** A successful cycle on the fast path stores the fresh rocket with the
    message and then the rows of the loop applied, whatever was stored. *)
Lemma Process_first_rebuilds f w message :
  number_of message = 1 →
  (Process f w message).2 = Returned None →
  ∃ rows,
    appliedRows f w message = message :: rows
    ∧ rockets (Process f w message).1 !! channel_of message
      = Some (stateAfter (newRocket (channel_of message)) (message :: rows)).
Proof.
  intros Hone. unfold Process, appliedRows, rocketInHand. rewrite !decide_True by done.
  destruct (buildRocketState (channel_of message) [message]) as [rocket|err] eqn:Hbuild;
    [|done].
  apply buildRocketState_inl in Hbuild as [_ Hrocket].
  destruct (Rocket.LastMessageNumber rocket) as [last|]; [|done].
  destruct (FindAfterNumber f w (channel_of message) last) as [msgs|err]; [|done].
  pose proof (foldMessages_applied rocket msgs) as Happlied.
  destruct (foldMessages rocket msgs) as [rocket' [[err|]|]]; [done| |done].
  simpl in Happlied. unfold Upsert. destruct (update_fails f); [done|].
  simpl. intros _. exists (foldApplied rocket msgs). split; [done|].
  rewrite Happlied, stateAfter_channel, Hrocket.
  rewrite (stateAfter_channel (newRocket (channel_of message)) [message]).
  simpl. by rewrite lookup_insert_eq.
Qed.

(** C9, amended: rows sharing a number are never applied on top of each
    other. In every reachable world each stored projection is a fresh
    rocket with logged rows of its channel applied that carry the numbers
    1, 2, ..., one row per number. The rows applied by the reconcile cycle
    that [Ingest] runs for a message carry consecutive numbers, hence no
    number twice: 1, 2, 3, ... when the message is numbered 1, and
    cursor + 1, cursor + 2, ... above the cursor of the stored projection
    otherwise. The rows fetched for the loop all lie above the cursor
    given. And a row numbered 1, when its [Ingest] succeeds, rebuilds the
    projection from that row: whatever was stored for the channel before,
    the stored projection becomes the fresh rocket with that row and then
    the rows of the loop applied. *)
Theorem no_double_apply (w : World) :
  reachable w →
  (∀ channel rocket,
     rockets w !! channel = Some rocket →
     ∃ applied,
       applied ≠ []
       ∧ numberedFromOne applied
       ∧ NoDup (number_of <$> applied)
       ∧ Forall (λ msg, msg ∈ messages w ∧ channel_of msg = channel) applied
       ∧ buildRocketState channel applied = inl rocket)
  ∧ (∀ f message, NoDup (number_of <$> appliedRows f w message))
  ∧ (∀ f channel cursor msgs,
       FindAfterNumber f w channel cursor = inl msgs →
       Forall (λ msg, cursor < number_of msg) msgs)
  ∧ (∀ f message,
       wellFormed message →
       NoDup (number_of <$> appliedRows f (afterStore w message) message)
       ∧ (number_of message = 1 →
          ∀ (i : nat) msg,
            appliedRows f (afterStore w message) message !! i = Some msg →
            number_of msg = 1 + Z.of_nat i)
       ∧ (number_of message ≠ 1 →
          ∀ rocket cursor,
            rockets w !! channel_of message = Some rocket →
            Rocket.LastMessageNumber rocket = Some cursor →
            ∀ (i : nat) msg,
              appliedRows f (afterStore w message) message !! i = Some msg →
              number_of msg = cursor + 1 + Z.of_nat i))
  ∧ (∀ f message,
       number_of message = 1 →
       (Ingest f w message).2 = Returned None →
       ∃ rows,
         appliedRows f (afterStore w message) message = message :: rows
         ∧ rockets (Ingest f w message).1 !! channel_of message
           = Some (stateAfter (newRocket (channel_of message)) (message :: rows))).
Proof.
  intros Hreach. pose proof (reachable_invariant w Hreach) as Hinv.
  split; [|split; [|split; [|split]]].
  - intros channel rocket Hlook. destruct Hinv as [_ Hstore].
    destruct (Hstore _ _ Hlook) as (applied & Hne & Hnum & Hlog & Hbuild).
    exists applied. repeat split; try done. by apply numberedFromOne_NoDup.
  - intros f message.
    destruct (appliedRows_numbers f w message Hinv) as [base Hbase].
    by eapply consecutive_numbers_NoDup.
  - intros f channel cursor msgs Hfind.
    eapply Forall_impl; [by eapply FindAfterNumber_rows|].
    simpl. by intros msg (_ & _ & ?).
  - intros f message Hmsg.
    pose proof (afterStore_invariant w message Hinv Hmsg) as Hinv1.
    split; [|split].
    + destruct (appliedRows_numbers f (afterStore w message) message Hinv1)
        as [base Hbase].
      by eapply consecutive_numbers_NoDup.
    + intros Hone. by apply appliedRows_first_numbers.
    + intros Hnotone rocket cursor Hlook Hcursor.
      by apply (appliedRows_stored_numbers f (afterStore w message) message rocket).
  - intros f message Hone. unfold Ingest, Store.
    destruct (insert_fails f); [done|].
    apply (Process_first_rebuilds f (afterStore w message) message Hone).
Qed.

Lemma no_double_apply_witness :
  (∀ channel rocket,
     rockets relaunchedWorld !! channel = Some rocket →
     ∃ applied,
       applied ≠ []
       ∧ numberedFromOne applied
       ∧ NoDup (number_of <$> applied)
       ∧ Forall (λ msg, msg ∈ messages relaunchedWorld ∧ channel_of msg = channel)
           applied
       ∧ buildRocketState channel applied = inl rocket)
  ∧ (∀ f message, NoDup (number_of <$> appliedRows f relaunchedWorld message))
  ∧ (∀ f channel cursor msgs,
       FindAfterNumber f relaunchedWorld channel cursor = inl msgs →
       Forall (λ msg, cursor < number_of msg) msgs)
  ∧ (∀ f message,
       wellFormed message →
       NoDup (number_of <$> appliedRows f (afterStore relaunchedWorld message) message)
       ∧ (number_of message = 1 →
          ∀ (i : nat) msg,
            appliedRows f (afterStore relaunchedWorld message) message !! i = Some msg →
            number_of msg = 1 + Z.of_nat i)
       ∧ (number_of message ≠ 1 →
          ∀ rocket cursor,
            rockets relaunchedWorld !! channel_of message = Some rocket →
            Rocket.LastMessageNumber rocket = Some cursor →
            ∀ (i : nat) msg,
              appliedRows f (afterStore relaunchedWorld message) message !! i = Some msg →
              number_of msg = cursor + 1 + Z.of_nat i))
  ∧ (∀ f message,
       number_of message = 1 →
       (Ingest f relaunchedWorld message).2 = Returned None →
       ∃ rows,
         appliedRows f (afterStore relaunchedWorld message) message = message :: rows
         ∧ rockets (Ingest f relaunchedWorld message).1 !! channel_of message
           = Some (stateAfter (newRocket (channel_of message)) (message :: rows))).
Proof.
  apply (no_double_apply relaunchedWorld).
  apply (reachable_ingest no_faults launchedWorld secondLaunch);
    [apply (reachable_ingest no_faults emptyWorld firstLaunch);
       [apply reachable_empty|] |];
    vm_compute; split; discriminate.
Defined.

(** ** Arrival order *)

#[local] Instance number_le_trans : Transitive number_le.
Proof. unfold number_le. intros x y z ? ?. lia. Qed.

#[local] Instance number_le_total : Total number_le.
Proof. unfold number_le. intros x y. lia. Qed.

Lemma NoDup_filter_stronger {A} (P Q : A → Prop)
    `{∀ x, Decision (P x)} `{∀ x, Decision (Q x)} (l : list A) :
  (∀ x, Q x → P x) → NoDup (filter P l) → NoDup (filter Q l).
Proof.
  intros HQP. induction l as [|x l IH]; [done|].
  rewrite !filter_cons. intros Hnd.
  destruct (decide (Q x)) as [HQ|HQ].
  - rewrite decide_True in Hnd by auto. apply NoDup_cons in Hnd as [Hx Hl].
    constructor; [|auto]. rewrite list_elem_of_filter in Hx.
    rewrite list_elem_of_filter. intros [_ Hxl]. apply Hx. auto.
  - destruct (decide (P x)); [apply NoDup_cons in Hnd as [_ Hnd]|]; auto.
Qed.

Section ArrivalOrder.
Variable channel : N.
Variable ms : list Message.t.
Hypothesis Hnumbered : numberedFromOne ms.
Hypothesis Hchannel : Forall (λ msg, channel_of msg = channel) ms.
Hypothesis Hwf : Forall wellFormed ms.
Hypothesis Haccepted : Forall accepted ms.

Lemma ms_index msg :
  msg ∈ ms → ∃ j : nat, ms !! j = Some msg ∧ number_of msg = Z.of_nat j + 1.
Proof.
  intros Hin. apply list_elem_of_lookup in Hin as [j Hj].
  exists j. split; [done|]. by apply Hnumbered.
Qed.

Lemma ms_lookup_facts j msg :
  ms !! j = Some msg →
  number_of msg = Z.of_nat j + 1
  ∧ channel_of msg = channel
  ∧ accepted msg
  ∧ Z.of_nat j + 1 <= int_max.
Proof.
  intros Hj. pose proof (Hnumbered j msg Hj) as Hnum.
  assert (msg ∈ ms) as Hin by (apply list_elem_of_lookup; eauto).
  rewrite Forall_forall in Hchannel, Hwf, Haccepted.
  repeat split; auto.
  specialize (Hwf msg Hin). unfold wellFormed, int_range in Hwf. lia.
Qed.

Lemma ms_same_number x y :
  x ∈ ms → y ∈ ms → number_of x = number_of y → x = y.
Proof.
  intros Hx Hy Heq.
  apply ms_index in Hx as (i & Hi & Hxi). apply ms_index in Hy as (j & Hj & Hyj).
  assert (i = j) as -> by lia. congruence.
Qed.

Lemma ms_take_numbered k : numberedFromOne (take k ms).
Proof.
  intros i msg Hi. apply Hnumbered.
  apply lookup_take_Some in Hi. tauto.
Qed.

Lemma ms_take_cursor k :
  (1 ≤ k ≤ length ms)%nat →
  Rocket.LastMessageNumber (stateAfter (newRocket channel) (take k ms))
  = Some (Z.of_nat k).
Proof.
  intros Hk. rewrite numbered_cursor.
  - rewrite length_take. do 2 f_equal. lia.
  - intros Hnil. apply (f_equal length) in Hnil.
    rewrite length_take in Hnil. simpl in Hnil. lia.
  - apply ms_take_numbered.
Qed.

(** The loop catches up: started on the fold of the first [k] messages
    with the arrived rows above [k] in ascending order, it ends on the
    fold of the first [k'] messages, where [k'] is the first gap. *)
Lemma foldMessages_catches_up (arrived : list Message.t) (rows : list Message.t) :
  ∀ k : nat,
    (1 ≤ k ≤ length ms)%nat →
    StronglySorted number_le rows →
    NoDup rows →
    (∀ x, x ∈ rows ↔ x ∈ arrived ∧ Z.of_nat k < number_of x) →
    (∀ x, x ∈ arrived → x ∈ ms) →
    (∀ x, x ∈ take k ms → x ∈ arrived) →
    ∃ k' : nat,
      (k ≤ k' ≤ length ms)%nat
      ∧ foldMessages (stateAfter (newRocket channel) (take k ms)) rows
        = (stateAfter (newRocket channel) (take k' ms), Returned None)
      ∧ (∀ x, x ∈ take k' ms → x ∈ arrived)
      ∧ (∀ x, ms !! k' = Some x → x ∉ arrived).
Proof.
  induction rows as [|row rows IH]; intros k Hk Hsorted Hnodup Hrows Harrived Htake.
  - exists k. split; [lia|]. split; [done|]. split; [done|].
    intros x Hx Hin. destruct (ms_lookup_facts _ _ Hx) as (Hnum & _).
    assert (x ∈ []) as Hnil by (apply Hrows; split; [done|lia]).
    by apply elem_of_nil in Hnil.
  - assert (row ∈ arrived ∧ Z.of_nat k < number_of row) as [Hrow Hgt]
      by (apply Hrows; left).
    destruct (ms_index row (Harrived _ Hrow)) as (j & Hj & Hnum).
    destruct (ms_lookup_facts _ _ Hj) as (_ & _ & Hacc & Hmax).
    assert (k < length ms)%nat as Hlt.
    { apply lookup_lt_Some in Hj. lia. }
    assert (wrap_int (Z.of_nat k + 1) = Z.of_nat k + 1) as Hwrap.
    { apply wrap_int_id. unfold int_range, int_min, int_max in *. lia. }
    inversion_clear Hsorted as [|? ? Hsorted' Hhead].
    inversion_clear Hnodup as [|? ? Hnotin Hnodup'].
    simpl. rewrite (ms_take_cursor k Hk), Hwrap.
    destruct (decide (number_of row = Z.of_nat k + 1)) as [Hexp|Hgap].
    + (* the expected row: it is message k+1 *)
      assert (j = k) as -> by lia.
      rewrite (applyMessage_accepted _ row Hacc).
      rewrite <- stateAfter_snoc, <- (take_S_r ms k row Hj).
      destruct (IH (S k)) as (k' & Hk' & Hloop & Htake' & Hgap'); try done.
      * lia.
      * intros x. split.
        -- intros Hx. assert (x ∈ arrived ∧ Z.of_nat k < number_of x) as [Hxa Hxk]
             by (apply Hrows; by right).
           split; [done|].
           assert (number_of x ≠ number_of row) as Hne.
           { intros Heq. apply Hnotin.
             by rewrite <- (ms_same_number x row (Harrived _ Hxa) (Harrived _ Hrow) Heq). }
           lia.
        -- intros [Hxa Hxk].
           assert (x ∈ row :: rows) as Hx by (apply Hrows; split; [done|lia]).
           apply elem_of_cons in Hx as [->|Hx]; [lia|done].
      * intros x. rewrite (take_S_r ms k row Hj), elem_of_app, list_elem_of_singleton.
        intros [Hx| ->]; auto.
      * exists k'. split; [lia|]. done.
    + (* a gap: message k+1 has not arrived *)
      exists k. split; [lia|]. split; [done|]. split; [done|].
      intros x Hx Hin. destruct (ms_lookup_facts _ _ Hx) as (Hxnum & _).
      assert (x ∈ row :: rows) as Hxrows by (apply Hrows; split; [done|lia]).
      apply elem_of_cons in Hxrows as [->|Hxrows]; [lia|].
      rewrite Forall_forall in Hhead. specialize (Hhead x Hxrows).
      unfold number_le in Hhead. lia.
Qed.

(** The rows fetched after cursor [k] once the arrived rows are logged. *)
Lemma fetched_rows (w : World) (arrived : list Message.t) (k : nat) :
  filter (λ msg, channel_of msg = channel) (messages w) ≡ₚ arrived →
  NoDup arrived →
  let rows := merge_sort number_le
                (filter (after_number channel (Z.of_nat k)) (messages w)) in
  StronglySorted number_le rows
  ∧ NoDup rows
  ∧ (∀ x, x ∈ rows ↔ x ∈ arrived ∧ Z.of_nat k < number_of x).
Proof.
  intros Hlog Hnodup rows. split; [apply StronglySorted_merge_sort; apply _|].
  split.
  - unfold rows. rewrite merge_sort_Permutation.
    refine (NoDup_filter_stronger (λ msg, channel_of msg = channel)
              (after_number channel (Z.of_nat k)) _ _ _).
    + by intros x [? _].
    + by rewrite Hlog.
  - intros x. unfold rows. rewrite merge_sort_Permutation.
    rewrite list_elem_of_filter, <- Hlog, list_elem_of_filter.
    unfold after_number. tauto.
Qed.

(** One more message of [ms] arrives. *)
Lemma Ingest_caughtUp (w : World) (arrived : list Message.t) (message : Message.t) :
  NoDup (arrived ++ [message]) →
  (∀ x, x ∈ arrived ++ [message] → x ∈ ms) →
  caughtUp channel ms arrived w →
  caughtUp channel ms (arrived ++ [message]) (Ingest no_faults w message).1.
Proof.
  intros Hnodup Hsub [Hlog Hstore]. rewrite Ingest_no_faults.
  set (w1 := mkWorld (messages w ++ [message]) (rockets w)).
  assert (message ∈ ms) as Hin by (apply Hsub, elem_of_app; right; left).
  destruct (ms_index message Hin) as (j & Hj & Hnum).
  destruct (ms_lookup_facts _ _ Hj) as (_ & Hch & Hacc & _).
  assert (filter (λ msg, channel_of msg = channel) (messages w1)
          ≡ₚ arrived ++ [message]) as Hlog1.
  { simpl. rewrite filter_app, filter_cons_True, filter_nil by done. by rewrite Hlog. }
  (* the cycle once the rocket in hand is the fold of the first k messages *)
  assert (∀ k : nat,
            (1 ≤ k ≤ length ms)%nat →
            (∀ x, x ∈ take k ms → x ∈ arrived ++ [message]) →
            rocketInHand no_faults w1 message
            = inl (Some (stateAfter (newRocket channel) (take k ms))) →
            caughtUp channel ms (arrived ++ [message])
              (Process no_faults w1 message).1) as Hcycle.
  { intros k Hk Htake Hhand.
    rewrite (Process_no_faults _ _ _ _ Hhand (ms_take_cursor k Hk)). rewrite Hch.
    destruct (fetched_rows w1 (arrived ++ [message]) k Hlog1 Hnodup)
      as (Hsorted & Hnd & Hrows).
    destruct (foldMessages_catches_up (arrived ++ [message]) _ k Hk
                Hsorted Hnd Hrows Hsub Htake)
      as (k' & Hk' & -> & Htake' & Hgap').
    rewrite stateAfter_channel. simpl. split; [done|]. right.
    exists k'. split; [lia|]. split; [done|]. split; [done|].
    simpl. by rewrite lookup_insert_eq. }
  destruct (decide (number_of message = 1)) as [Hone|Hnotone].
  - (* the first message arrives: fast path *)
    assert (j = 0%nat) as -> by lia.
    assert (take 1 ms = [message]) as Htake1.
    { destruct ms as [|m0 ms']; [done|]. simpl in Hj. by simplify_eq. }
    apply (Hcycle 1%nat).
    + apply lookup_lt_Some in Hj. lia.
    + rewrite Htake1. intros x Hx. apply elem_of_app. by right.
    + rewrite Htake1, <- Hch. by apply Process_first.
  - destruct Hstore as [[Hfirst Hnone]|(k & Hk & Htake & Hgap & Hsome)].
    + (* the first message has not arrived yet *)
      rewrite Process_no_projection; [|done|by rewrite Hch].
      split; [done|]. left. split; [|done].
      intros m0 Hm0. rewrite not_elem_of_app. split; [by apply Hfirst|].
      rewrite list_elem_of_singleton. intros ->.
      destruct (ms_lookup_facts _ _ Hm0) as (Hm0num & _). simpl in Hm0num. lia.
    + apply (Hcycle k Hk).
      * intros x Hx. apply elem_of_app. left. by apply Htake.
      * unfold rocketInHand, FindByChannel. rewrite decide_False by done.
        simpl. by rewrite Hch, Hsome.
Qed.

Lemma ingestAll_snoc (w : World) (arrival : list Message.t) (message : Message.t) :
  ingestAll w (arrival ++ [message])
  = (Ingest no_faults (ingestAll w arrival) message).1.
Proof. unfold ingestAll. by rewrite foldl_app. Qed.

Lemma ingestAll_caughtUp (w : World) (arrival : list Message.t) :
  channelFresh channel w →
  NoDup arrival →
  (∀ x, x ∈ arrival → x ∈ ms) →
  caughtUp channel ms arrival (ingestAll w arrival).
Proof.
  intros [Hlog Hnone].
  induction arrival as [|message arrival IH] using rev_ind; intros Hnodup Hsub.
  - split.
    + simpl. clear -Hlog. induction Hlog as [|x l Hx _ IH]; [done|].
      by rewrite filter_cons_False.
    + left. split; [|done]. intros msg _. apply not_elem_of_nil.
  - rewrite ingestAll_snoc. apply Ingest_caughtUp; [done..|].
    apply IH.
    + by apply NoDup_app in Hnodup as [? _].
    + intros x Hx. apply Hsub, elem_of_app. by left.
Qed.

Lemma ms_NoDup : NoDup ms.
Proof.
  apply (NoDup_fmap_1 number_of). by apply numberedFromOne_NoDup.
Qed.

(** Whatever the arrival order, the stored projection ends as the fold
    of all the messages in the order of their numbers. *)
Lemma ingestAll_permutation (w : World) (arrival : list Message.t) :
  channelFresh channel w →
  arrival ≡ₚ ms →
  rockets (ingestAll w arrival) !! channel
  = match ms with
    | [] => None
    | _ :: _ => Some (stateAfter (newRocket channel) ms)
    end.
Proof.
  intros Hfresh Hperm.
  destruct (ingestAll_caughtUp w arrival Hfresh) as [_ Hstore].
  { rewrite Hperm. apply ms_NoDup. }
  { intros x. by rewrite Hperm. }
  destruct Hstore as [[Hfirst Hnone]|(k & Hk & Htake & Hgap & Hsome)].
  - destruct ms as [|m0 ms'] eqn:Hms; [done|].
    exfalso. apply (Hfirst m0); [done|]. rewrite Hperm. left.
  - destruct ms as [|m0 ms'] eqn:Hms; [simpl in Hk; lia|].
    rewrite <- Hms in *. rewrite Hsome. do 2 f_equal.
    apply take_ge. destruct (ms !! k) as [x|] eqn:Hx.
    + exfalso. apply (Hgap x); [done|]. rewrite Hperm.
      apply list_elem_of_lookup. eauto.
    + by apply lookup_ge_None.
Qed.
End ArrivalOrder.

(** C1, as stated, fails when one of the messages is refused by
    [applyMessage]: message 2 is of an unknown kind; arriving after message
    1 it leaves the projection of message 1 in the store, arriving before
    message 1 it makes the cycle of message 1 fail before anything is
    stored. *)
Lemma refused_message_breaks_order_independence :
  channelFresh 7 emptyWorld
  ∧ numberedFromOne [firstLaunch; teleported 7 2]
  ∧ Forall (λ msg, channel_of msg = 7%N) [firstLaunch; teleported 7 2]
  ∧ [teleported 7 2; firstLaunch] ≡ₚ [firstLaunch; teleported 7 2]
  ∧ rockets (ingestAll emptyWorld [firstLaunch; teleported 7 2]) !! 7%N
    = Some launchedRocket
  ∧ rockets (ingestAll emptyWorld [teleported 7 2; firstLaunch]) !! 7%N = None
  ∧ rockets (ingestAll emptyWorld [firstLaunch; teleported 7 2]) !! 7%N
    ≠ rockets (ingestAll emptyWorld [teleported 7 2; firstLaunch]) !! 7%N.
Proof.
  split; [split; [constructor|reflexivity]|].
  split; [intros [|[|i]] msg Hi; simpl in Hi; by simplify_eq|].
  split; [repeat constructor|].
  split; [apply Permutation_swap|].
  assert (rockets (ingestAll emptyWorld [firstLaunch; teleported 7 2]) !! 7%N
          = Some launchedRocket) as H12 by (vm_compute; reflexivity).
  assert (rockets (ingestAll emptyWorld [teleported 7 2; firstLaunch]) !! 7%N = None)
    as H21 by (vm_compute; reflexivity).
  split; [exact H12|]. split; [exact H21|]. rewrite H12, H21. discriminate.
Qed.

(** When message 1 itself is refused nothing is ever stored for the
    channel, in whatever order the messages arrive. *)
Lemma ingestAll_first_rejected (w : World) (channel : N)
    (ms arrival : list Message.t) (m1 : Message.t) :
  channelFresh channel w →
  numberedFromOne ms →
  Forall (λ msg, channel_of msg = channel) ms →
  ms !! 0%nat = Some m1 →
  rejected m1 →
  (∀ x, x ∈ arrival → x ∈ ms) →
  rockets (ingestAll w arrival) !! channel = None.
Proof.
  intros [_ Hnone] Hnum Hch Hm1 Hrej.
  induction arrival as [|message arrival IH] using rev_ind; intros Hsub; [done|].
  rewrite ingestAll_snoc, Ingest_no_faults.
  assert (rockets (ingestAll w arrival) !! channel = None) as Hprev.
  { apply IH. intros x Hx. apply Hsub, elem_of_app. by left. }
  assert (message ∈ ms) as Hin by (apply Hsub, elem_of_app; right; left).
  assert (channel_of message = channel) as Hmch.
  { rewrite Forall_forall in Hch. by apply Hch. }
  destruct (decide (number_of message = 1)) as [Hone|Hnotone].
  - apply list_elem_of_lookup in Hin as [j Hj].
    pose proof (Hnum j message Hj) as Hnumj.
    assert (j = 0%nat) as -> by lia. simplify_eq.
    by rewrite Process_first_rejected.
  - by rewrite Process_no_projection; [|done|rewrite Hmch].
Qed.

(** C1, amended: for a channel without history and messages of that
    channel numbered 1..N (Go ints), ingested without storage faults, the
    stored projection of the channel is the same for any two arrival
    orders provided [applyMessage] accepts every one of the messages, or
    refuses message 1 itself. When all are accepted the projection is the
    fresh rocket with the N messages applied in the order of their
    numbers; when message 1 is refused there is none. *)
Theorem order_independence (w : World) (channel : N)
    (ms arrival1 arrival2 : list Message.t) :
  channelFresh channel w →
  numberedFromOne ms →
  Forall (λ msg, channel_of msg = channel) ms →
  Forall wellFormed ms →
  Forall accepted ms ∨ (∃ m1, ms !! 0%nat = Some m1 ∧ rejected m1) →
  arrival1 ≡ₚ ms →
  arrival2 ≡ₚ ms →
  rockets (ingestAll w arrival1) !! channel = rockets (ingestAll w arrival2) !! channel
  ∧ (Forall accepted ms → ms ≠ [] →
     rockets (ingestAll w arrival1) !! channel
     = Some (stateAfter (newRocket channel) ms))
  ∧ ((∃ m1, ms !! 0%nat = Some m1 ∧ rejected m1) →
     rockets (ingestAll w arrival1) !! channel = None).
Proof.
  intros Hfresh Hnum Hch Hwf Hcases Hperm1 Hperm2.
  assert (∀ arrival, arrival ≡ₚ ms → Forall accepted ms →
            rockets (ingestAll w arrival) !! channel
            = match ms with
              | [] => None
              | _ :: _ => Some (stateAfter (newRocket channel) ms)
              end) as Haccepted.
  { intros arrival Hperm Hacc.
    by apply (ingestAll_permutation channel ms Hnum Hch Hwf Hacc w arrival). }
  assert (∀ arrival, arrival ≡ₚ ms → (∃ m1, ms !! 0%nat = Some m1 ∧ rejected m1) →
            rockets (ingestAll w arrival) !! channel = None) as Hrejected.
  { intros arrival Hperm (m1 & Hm1 & Hrej).
    apply (ingestAll_first_rejected w channel ms arrival m1); try done.
    intros x. by rewrite Hperm. }
  split; [|split].
  - destruct Hcases as [Hacc|Hrej].
    + by rewrite !Haccepted.
    + by rewrite !Hrejected.
  - intros Hacc Hne. rewrite Haccepted by done. by destruct ms.
  - by apply Hrejected.
Qed.

Lemma order_independence_witness :
  rockets (ingestAll emptyWorld
             [speedDecreased 7 3 (whole 500); firstLaunch;
              speedIncreased 7 2 (whole 3000)]) !! 7%N
  = rockets (ingestAll emptyWorld
               [speedIncreased 7 2 (whole 3000); speedDecreased 7 3 (whole 500);
                firstLaunch]) !! 7%N.
Proof.
  apply (order_independence emptyWorld 7
           [firstLaunch; speedIncreased 7 2 (whole 3000); speedDecreased 7 3 (whole 500)]).
  - split; [constructor|reflexivity].
  - intros [|[|[|i]]] msg Hi; simpl in Hi; [inversion Hi; reflexivity..|discriminate].
  - constructor; [reflexivity|constructor; [reflexivity|constructor; [reflexivity|constructor]]].
  - constructor; [vm_compute; split; discriminate|].
    constructor; [vm_compute; split; discriminate|].
    constructor; [vm_compute; split; discriminate|constructor].
  - left. constructor; [intros rocket; reflexivity|].
    constructor; [intros rocket; reflexivity|].
    constructor; [intros rocket; reflexivity|constructor].
  - apply (Permutation_cons_append
             [firstLaunch; speedIncreased 7 2 (whole 3000)]
             (speedDecreased 7 3 (whole 500))).
  - symmetry.
    apply (Permutation_cons_append
             [speedIncreased 7 2 (whole 3000); speedDecreased 7 3 (whole 500)]
             firstLaunch).
Defined.

(** * Further properties *)

(** ** What [applyMessage] accepts and keeps *)

Lemma int_of_float64_range f : int_range (int_of_float64 f).
Proof.
  assert (int_range int_min) as Hmin by (vm_compute; split; discriminate).
  assert (int_range 0) as Hzero by (vm_compute; split; discriminate).
  destruct f as [s|s| |s m e]; simpl; try done. by case_decide.
Qed.

(** X1: [applyMessage] accepts a message exactly when its payload fits its
    kind: a launch and an explosion always (fields that are missing or of
    the wrong type are replaced by zero values), a speed change when [by]
    is a number, a mission change when [newMission] is a string; any other
    kind is refused. Whether the rocket is new, active or exploded plays no
    part. *)
Theorem accepted_iff_payload_fits (msg : Message.t) :
  (accepted msg ↔ payloadFits msg) ∧ (rejected msg ↔ ¬ payloadFits msg).
Proof.
  assert ((applyMessage (newRocket 0) msg).2 = None ↔ payloadFits msg) as Hiff.
  { unfold applyMessage, payloadFits.
    repeat case_decide; simpl;
      try destruct (Message.Message msg !! "by") as [[]|] eqn:Hby; simpl;
      try destruct (Message.Message msg !! "newMission") as [[]|] eqn:Hmission; simpl;
      (split; [intros Hnone; try done; eauto 8|]);
      try (intros _; done);
      intros [?|[?|[[[?|?] [? ?]]|[? [? ?]]]]]; congruence. }
  split.
  - rewrite <- Hiff. split; [intros Hacc; apply Hacc|].
    intros Hnone rocket.
    by rewrite (applyMessage_error_independent rocket (newRocket 0)).
  - rewrite <- Hiff. split.
    + intros Hrej. apply Hrej.
    + intros Hsome rocket.
      by rewrite (applyMessage_error_independent rocket (newRocket 0)).
Qed.

Lemma accepted_iff_payload_fits_witness :
  accepted (message 7 1 1000 "RocketLaunched" []).
Proof.
  apply (accepted_iff_payload_fits (message 7 1 1000 "RocketLaunched" [])).
  left. reflexivity.
Defined.

Lemma newRocket_wellShaped channel : wellShaped (newRocket channel).
Proof.
  split; [by left|]. split; [discriminate|]. vm_compute. split; discriminate.
Qed.

Lemma applyMessage_wellShaped rocket msg :
  wellShaped rocket → wellShaped (applyMessage rocket msg).1.
Proof.
  intros (Hstatus & Hreason & Hspeed). unfold applyMessage, wellShaped.
  repeat case_decide; simpl;
    repeat (match goal with
            | |- context [assert_float64 ?x] => destruct (assert_float64 x) as [? []]
            | |- context [assert_string ?x] => destruct (assert_string x) as [? []]
            end; simpl);
    repeat split;
    auto using int_of_float64_range, wrap_int_range;
    try (intros ?; discriminate); try (by apply Hspeed); eauto;
    try apply int_of_float64_range; apply wrap_int_range.
Qed.

Lemma stateAfter_wellShaped rocket msgs :
  wellShaped rocket → wellShaped (stateAfter rocket msgs).
Proof.
  revert rocket. induction msgs as [|msg msgs IH]; intros rocket Hshape; [done|].
  simpl. by apply IH, applyMessage_wellShaped.
Qed.

(** X2: [buildRocketState] fails exactly when [applyMessage] refuses one of
    the messages. When it succeeds the rocket has the channel it was built
    for, the status active or exploded, a reason whenever it is exploded,
    and as cursor the number of the last message of the list, whatever the
    order of the numbers in the list; built from no message it has a nil
    cursor. *)
Theorem buildRocketState_outcome (channel : N) (msgs : list Message.t) :
  ((∃ err, buildRocketState channel msgs = inr err) ↔ Exists rejected msgs)
  ∧ (∀ rocket,
       buildRocketState channel msgs = inl rocket →
       Forall accepted msgs
       ∧ Rocket.Channel rocket = channel
       ∧ wellShaped rocket
       ∧ Rocket.LastMessageNumber rocket = number_of <$> last msgs).
Proof.
  split.
  - split.
    + intros [err Hbuild].
      assert (¬ Forall accepted msgs) as Hnot.
      { intros Hacc. by rewrite buildRocketState_accepted in Hbuild. }
      clear Hbuild. induction msgs as [|msg msgs IH]; [by destruct Hnot|].
      destruct (accepted_or_rejected msg) as [Hacc|Hrej]; [|by left].
      right. apply IH. intros Hall. apply Hnot. by constructor.
    + intros Hex. destruct (buildRocketState channel msgs) as [rocket|err] eqn:Hbuild;
        [|eauto].
      apply buildRocketState_inl in Hbuild as [Hacc _].
      exfalso. apply Exists_exists in Hex as (msg & Hin & Hrej).
      rewrite Forall_forall in Hacc.
      apply (Hrej (newRocket 0)), (Hacc msg Hin).
  - intros rocket Hbuild. apply buildRocketState_inl in Hbuild as [Hacc ->].
    split; [done|]. split; [apply stateAfter_channel|].
    split; [apply stateAfter_wellShaped, newRocket_wellShaped|].
    induction msgs as [|msg msgs _] using rev_ind; [done|].
    rewrite stateAfter_snoc, last_snoc. simpl. apply applyMessage_cursor.
Qed.

Lemma buildRocketState_outcome_witness :
  Forall accepted [speedIncreased 7 9 (whole 10); firstLaunch]
  ∧ Rocket.Channel (stateAfter (newRocket 7) [speedIncreased 7 9 (whole 10); firstLaunch])
    = 7%N
  ∧ wellShaped (stateAfter (newRocket 7) [speedIncreased 7 9 (whole 10); firstLaunch])
  ∧ Rocket.LastMessageNumber
      (stateAfter (newRocket 7) [speedIncreased 7 9 (whole 10); firstLaunch])
    = number_of <$> last [speedIncreased 7 9 (whole 10); firstLaunch].
Proof.
  apply (buildRocketState_outcome 7 [speedIncreased 7 9 (whole 10); firstLaunch]).
  reflexivity.
Defined.

(** ** What one [Ingest] does to the two collections *)

(** Either [Process] leaves the world as it is, or it ends with the one
    write of the cycle: the upsert of the folded rocket. *)
Lemma Process_cases f w message :
  (Process f w message).1 = w
  ∨ ∃ rocket last msgs rocket',
      rocketInHand f w message = inl (Some rocket)
      ∧ Rocket.LastMessageNumber rocket = Some last
      ∧ FindAfterNumber f w (channel_of message) last = inl msgs
      ∧ foldMessages rocket msgs = (rocket', Returned None)
      ∧ Process f w message
        = (mkWorld (messages w) (<[Rocket.Channel rocket' := rocket']> (rockets w)),
           Returned None).
Proof.
  unfold Process.
  destruct (rocketInHand f w message) as [[rocket|]|err] eqn:Hhand; [|by left..].
  destruct (Rocket.LastMessageNumber rocket) as [last|] eqn:Hlast; [|by left].
  destruct (FindAfterNumber f w (channel_of message) last) as [msgs|err] eqn:Hfind;
    [|by left].
  destruct (foldMessages rocket msgs) as [rocket' [[err|]|]] eqn:Hloop; [by left| |by left].
  unfold Upsert. destruct (update_fails f); [by left|].
  right. by exists rocket, last, msgs, rocket'.
Qed.

Lemma Process_failure_unchanged f w message :
  (Process f w message).2 ≠ Returned None → (Process f w message).1 = w.
Proof.
  destruct (Process_cases f w message) as [?|(? & ? & ? & ? & _ & _ & _ & _ & ->)]; done.
Qed.

Lemma Process_error_kind f w message err :
  (Process f w message).2 = Returned (Some err) → err = ProcessMessageError.
Proof.
  unfold Process, rocketInHand. case_decide.
  - destruct (buildRocketState _ _) as [rocket|e]; simpl; [|congruence].
    destruct (Rocket.LastMessageNumber rocket) as [last|]; [|done].
    destruct (FindAfterNumber _ _ _ _) as [msgs|e]; simpl; [|congruence].
    revert rocket. induction msgs as [|msg msgs IH]; intros rocket; simpl.
    + unfold Upsert. destruct (update_fails f); simpl; congruence.
    + destruct (Rocket.LastMessageNumber rocket) as [last'|]; [|done].
      case_decide.
      * destruct (applyMessage rocket msg) as [r1 [e|]]; simpl; [congruence|apply IH].
      * unfold Upsert. destruct (update_fails f); simpl; congruence.
  - destruct (FindByChannel f w (channel_of message)).1 as [rocket|]; simpl; [|done].
    destruct (Rocket.LastMessageNumber rocket) as [last|]; [|done].
    destruct (FindAfterNumber _ _ _ _) as [msgs|e]; simpl; [|congruence].
    revert rocket. induction msgs as [|msg msgs IH]; intros rocket; simpl.
    + unfold Upsert. destruct (update_fails f); simpl; congruence.
    + destruct (Rocket.LastMessageNumber rocket) as [last'|]; [|done].
      case_decide.
      * destruct (applyMessage rocket msg) as [r1 [e|]]; simpl; [congruence|apply IH].
      * unfold Upsert. destruct (update_fails f); simpl; congruence.
Qed.

Lemma Process_messages f w message :
  messages (Process f w message).1 = messages w.
Proof.
  destruct (Process_cases f w message) as [->|(? & ? & ? & ? & _ & _ & _ & _ & ->)]; done.
Qed.

Lemma Ingest_logs_first_aux f w message :
  (Ingest f w message).2 = Returned None →
  messages (Ingest f w message).1 = messages w ++ [message].
Proof.
  unfold Ingest, Store. destruct (insert_fails f); [done|].
  intros _. by rewrite Process_messages.
Qed.

Lemma Ingest_failure_aux f w message :
  (Ingest f w message).2 ≠ Returned None →
  rockets (Ingest f w message).1 = rockets w.
Proof.
  unfold Ingest, Store. destruct (insert_fails f); [done|].
  intros Hfail. by rewrite Process_failure_unchanged.
Qed.

(** X3: [Ingest] logs first and unconditionally. When the insert fails the
    call returns the store error and nothing else happens; otherwise the
    message is appended to the log whatever its number, its kind or its
    payload, and whatever becomes of the reconcile cycle after it (no
    projection yet, a refused row, a failing read or upsert). *)
Theorem Ingest_logs_first (f : Faults) (w : World) (message : Message.t) :
  (insert_fails f = true →
     Ingest f w message = (w, Returned (Some StoreMessageError)))
  ∧ (insert_fails f = false →
       messages (Ingest f w message).1 = messages w ++ [message]).
Proof.
  unfold Ingest, Store. split; intros ->; [done|]. by rewrite Process_messages.
Qed.

Lemma Ingest_logs_first_witness :
  messages (Ingest (mkFaults false true true true) emptyWorld (teleported 7 12)).1
  = messages emptyWorld ++ [teleported 7 12].
Proof.
  apply (Ingest_logs_first (mkFaults false true true true) emptyWorld (teleported 7 12)).
  reflexivity.
Defined.

(** X4: a call of [Ingest] that does not report success leaves every
    projection as it was: whether the log write, the build on the fast
    path, the range query, a row of the fold or the upsert failed, or the
    call panicked, the rockets collection is untouched. The error it
    returns is the store error or the processing error, never the error of
    the driver or of [applyMessage] itself. *)
Theorem Ingest_failure_keeps_projections (f : Faults) (w : World) (message : Message.t) :
  (Ingest f w message).2 ≠ Returned None →
  rockets (Ingest f w message).1 = rockets w
  ∧ ∀ err, (Ingest f w message).2 = Returned (Some err) →
           err = StoreMessageError ∨ err = ProcessMessageError.
Proof.
  unfold Ingest, Store. destruct (insert_fails f).
  - intros _. split; [done|]. intros err [= <-]. by left.
  - intros Hfail. split.
    + by rewrite Process_failure_unchanged.
    + intros err Herr. right. by eapply Process_error_kind.
Qed.

Lemma Ingest_failure_keeps_projections_witness :
  rockets (Ingest (mkFaults false false false true) launchedWorld
             (speedIncreased 7 2 (whole 3000))).1
  = rockets launchedWorld
  ∧ ∀ err,
      (Ingest (mkFaults false false false true) launchedWorld
         (speedIncreased 7 2 (whole 3000))).2 = Returned (Some err) →
      err = StoreMessageError ∨ err = ProcessMessageError.
Proof.
  apply (Ingest_failure_keeps_projections (mkFaults false false false true)
           launchedWorld (speedIncreased 7 2 (whole 3000))).
  vm_compute. discriminate.
Defined.

Lemma foldMessages_channel rocket msgs :
  Rocket.Channel (foldMessages rocket msgs).1 = Rocket.Channel rocket.
Proof. rewrite foldMessages_applied. apply stateAfter_channel. Qed.

Lemma rocketInHand_channel f w message rocket :
  (∀ channel r, rockets w !! channel = Some r → Rocket.Channel r = channel) →
  rocketInHand f w message = inl (Some rocket) →
  Rocket.Channel rocket = channel_of message.
Proof.
  intros Hkeys. unfold rocketInHand. case_decide.
  - destruct (buildRocketState _ _) as [r|err] eqn:Hbuild; [|done].
    apply buildRocketState_inl in Hbuild as [_ ->]. intros [= <-].
    apply (stateAfter_channel (newRocket (channel_of message)) [message]).
  - unfold FindByChannel. destruct (find_one_fails f); [done|].
    destruct (rockets w !! channel_of message) as [r|] eqn:Hlook; [|done].
    intros [= <-]. by apply Hkeys.
Qed.

(** X5: channels do not interfere. In a world the service can reach, an
    [Ingest] for one channel, however it ends, leaves the projection of
    every other channel exactly as it was. *)
Theorem Ingest_other_channels (f : Faults) (w : World) (message : Message.t)
    (channel : N) :
  reachable w →
  channel ≠ channel_of message →
  rockets (Ingest f w message).1 !! channel = rockets w !! channel.
Proof.
  intros Hreach Hother.
  assert (∀ c r, rockets w !! c = Some r → Rocket.Channel r = c) as Hkeys.
  { intros c r Hlook. destruct (reachable_invariant w Hreach) as [_ Hstore].
    by eapply foldOfLog_channel, Hstore. }
  unfold Ingest, Store. destruct (insert_fails f); [done|].
  set (w1 := mkWorld (messages w ++ [message]) (rockets w)).
  destruct (Process_cases f w1 message)
    as [->|(rocket & last & msgs & rocket' & Hhand & _ & _ & Hloop & ->)]; [done|].
  simpl. rewrite lookup_insert_ne; [done|].
  replace rocket' with (foldMessages rocket msgs).1 by by rewrite Hloop.
  rewrite foldMessages_channel, (rocketInHand_channel f w1 message rocket); done.
Qed.

Lemma Ingest_other_channels_witness :
  rockets (Ingest no_faults launchedWorld (launched 8 1 700)).1 !! 7%N
  = rockets launchedWorld !! 7%N.
Proof.
  apply (Ingest_other_channels no_faults launchedWorld (launched 8 1 700) 7).
  - apply (reachable_ingest no_faults emptyWorld firstLaunch);
      [apply reachable_empty | vm_compute; split; discriminate].
  - vm_compute. discriminate.
Defined.

(** X6: a projection is never removed: whatever message is ingested and
    whichever storage calls fail, a channel that has a projection before
    the call has one after it. *)
Theorem Ingest_never_deletes (f : Faults) (w : World) (message : Message.t)
    (channel : N) :
  is_Some (rockets w !! channel) →
  is_Some (rockets (Ingest f w message).1 !! channel).
Proof.
  intros Hsome. unfold Ingest, Store. destruct (insert_fails f); [done|].
  set (w1 := mkWorld (messages w ++ [message]) (rockets w)).
  destruct (Process_cases f w1 message)
    as [->|(rocket & last & msgs & rocket' & _ & _ & _ & _ & ->)]; [done|].
  simpl. rewrite lookup_insert. by case_decide.
Qed.

Lemma Ingest_never_deletes_witness :
  is_Some (rockets (Ingest no_faults launchedWorld (teleported 7 2)).1 !! 7%N).
Proof.
  apply (Ingest_never_deletes no_faults launchedWorld (teleported 7 2) 7).
  vm_compute. eauto.
Defined.

Lemma FindAfterNumber_log f w1 w2 channel number :
  messages w1 = messages w2 →
  FindAfterNumber f w1 channel number = FindAfterNumber f w2 channel number.
Proof. unfold FindAfterNumber. by intros ->. Qed.

(** X7: the fast path rebuilds from the log alone. For a message numbered
    1 the outcome of [Ingest] and, when it succeeds, the projection stored
    for the channel are the same in any two worlds with the same log: the
    projection the channel had before plays no part and is replaced. *)
Theorem Ingest_first_ignores_store (f : Faults) (w1 w2 : World) (message : Message.t) :
  number_of message = 1 →
  messages w1 = messages w2 →
  (Ingest f w1 message).2 = (Ingest f w2 message).2
  ∧ ((Ingest f w1 message).2 = Returned None →
     rockets (Ingest f w1 message).1 !! channel_of message
     = rockets (Ingest f w2 message).1 !! channel_of message
     ∧ is_Some (rockets (Ingest f w1 message).1 !! channel_of message)).
Proof.
  intros Hone Hlog. unfold Ingest, Store. destruct (insert_fails f); [done|].
  unfold Process, rocketInHand. rewrite !decide_True by done.
  destruct (buildRocketState (channel_of message) [message]) as [rocket|err] eqn:Hbuild;
    [|done].
  apply buildRocketState_inl in Hbuild as [_ Hrocket].
  destruct (Rocket.LastMessageNumber rocket) as [last|]; [|done].
  rewrite (FindAfterNumber_log f
             (mkWorld (messages w1 ++ [message]) (rockets w1))
             (mkWorld (messages w2 ++ [message]) (rockets w2)))
    by (simpl; by rewrite Hlog).
  destruct (FindAfterNumber f _ (channel_of message) last) as [msgs|err]; [|done].
  pose proof (foldMessages_channel rocket msgs) as Hch.
  destruct (foldMessages rocket msgs) as [rocket' [[err|]|]]; [done| |done].
  simpl in Hch. unfold Upsert. destruct (update_fails f); [done|].
  simpl. split; [done|]. intros _.
  rewrite Hch, Hrocket, stateAfter_channel, !lookup_insert_eq. eauto.
Qed.

Lemma Ingest_first_ignores_store_witness :
  (Ingest no_faults relaunchedWorld firstLaunch).2
  = (Ingest no_faults (mkWorld (messages relaunchedWorld) ∅) firstLaunch).2.
Proof.
  apply (Ingest_first_ignores_store no_faults relaunchedWorld
           (mkWorld (messages relaunchedWorld) ∅) firstLaunch);
    reflexivity.
Defined.

(** ** Catching up *)

(** X8: the stored projection follows the gapless prefix of what has
    arrived. For a channel without history and accepted messages numbered
    1..N, after any of them have been ingested, each once and in any order,
    the channel has no projection as long as message 1 is missing, and
    otherwise its projection is the fresh rocket with messages 1..k
    applied, where message k+1 is the first that has not arrived: a message
    that arrives early is logged and waits, and the call that closes the
    gap applies everything that waited behind it. *)
Theorem projection_follows_gapless_prefix (w : World) (channel : N)
    (ms arrived : list Message.t) :
  channelFresh channel w →
  numberedFromOne ms →
  Forall (λ msg, channel_of msg = channel) ms →
  Forall wellFormed ms →
  Forall accepted ms →
  NoDup arrived →
  (∀ msg, msg ∈ arrived → msg ∈ ms) →
  ((∀ msg, ms !! 0%nat = Some msg → msg ∉ arrived)
   ∧ rockets (ingestAll w arrived) !! channel = None)
  ∨ ∃ k : nat,
      (1 ≤ k ≤ length ms)%nat
      ∧ (∀ msg, msg ∈ take k ms → msg ∈ arrived)
      ∧ (∀ msg, ms !! k = Some msg → msg ∉ arrived)
      ∧ rockets (ingestAll w arrived) !! channel
        = Some (stateAfter (newRocket channel) (take k ms)).
Proof.
  intros Hfresh Hnum Hch Hwf Hacc Hnodup Hsub.
  by destruct (ingestAll_caughtUp channel ms Hnum Hch Hwf Hacc w arrived
                 Hfresh Hnodup Hsub) as [_ Hstore].
Qed.

Lemma projection_follows_gapless_prefix_witness :
  ((∀ msg, [firstLaunch; speedIncreased 7 2 (whole 3000);
            speedDecreased 7 3 (whole 500); exploded 7 4] !! 0%nat = Some msg →
           msg ∉ [exploded 7 4; speedIncreased 7 2 (whole 3000); firstLaunch])
   ∧ rockets (ingestAll emptyWorld
                [exploded 7 4; speedIncreased 7 2 (whole 3000); firstLaunch]) !! 7%N
     = None)
  ∨ ∃ k : nat,
      (1 ≤ k ≤ length [firstLaunch; speedIncreased 7 2 (whole 3000);
                       speedDecreased 7 3 (whole 500); exploded 7 4])%nat
      ∧ (∀ msg, msg ∈ take k [firstLaunch; speedIncreased 7 2 (whole 3000);
                              speedDecreased 7 3 (whole 500); exploded 7 4] →
                msg ∈ [exploded 7 4; speedIncreased 7 2 (whole 3000); firstLaunch])
      ∧ (∀ msg, [firstLaunch; speedIncreased 7 2 (whole 3000);
                 speedDecreased 7 3 (whole 500); exploded 7 4] !! k = Some msg →
                msg ∉ [exploded 7 4; speedIncreased 7 2 (whole 3000); firstLaunch])
      ∧ rockets (ingestAll emptyWorld
                   [exploded 7 4; speedIncreased 7 2 (whole 3000); firstLaunch]) !! 7%N
        = Some (stateAfter (newRocket 7)
                  (take k [firstLaunch; speedIncreased 7 2 (whole 3000);
                           speedDecreased 7 3 (whole 500); exploded 7 4])).
Proof.
  apply (projection_follows_gapless_prefix emptyWorld 7
           [firstLaunch; speedIncreased 7 2 (whole 3000);
            speedDecreased 7 3 (whole 500); exploded 7 4]
           [exploded 7 4; speedIncreased 7 2 (whole 3000); firstLaunch]).
  - split; [constructor|reflexivity].
  - intros [|[|[|[|i]]]] msg Hi; simpl in Hi; [inversion Hi; reflexivity..|discriminate].
  - repeat (constructor; [reflexivity|]). constructor.
  - repeat (constructor; [vm_compute; split; discriminate|]). constructor.
  - repeat (constructor; [intros rocket; reflexivity|]). constructor.
  - repeat (constructor; [rewrite ?not_elem_of_cons; repeat split;
                          try discriminate; apply not_elem_of_nil|]).
    constructor.
  - intros msg. rewrite !elem_of_cons, elem_of_nil. intros [->|[->|[->|[]]]]; tauto.
Defined.

Lemma wrap_int_succ_ne z : wrap_int (z + 1) ≠ z.
Proof.
  unfold wrap_int. intros Heq.
  pose proof (Z.mod_pos_bound (z + 1 + 2 ^ 63) (2 ^ 64) eq_refl) as Hbound.
  destruct (decide (z + 1 + 2 ^ 63 < 2 ^ 64)) as [Hlt|Hge].
  - rewrite Z.mod_small in Heq; lia.
  - assert (z + 1 + 2 ^ 63 = 2 ^ 64) as Htop by lia.
    rewrite Htop, Z.mod_same in Heq by done. lia.
Qed.

(** Above the cursor, among Go ints, the row the loop expects is the row
    numbered cursor + 1. *)
Lemma expected_is_successor cursor x :
  int_range cursor → int_range x → int_min < x →
  x = wrap_int (cursor + 1) ↔ x = cursor + 1.
Proof.
  unfold int_range, int_min, int_max. intros Hc Hx Hmin.
  destruct (decide (cursor = 2 ^ 63 - 1)) as [->|Hmax].
  - replace (wrap_int (2 ^ 63 - 1 + 1)) with (- 2 ^ 63) by reflexivity. lia.
  - rewrite wrap_int_id; [done|]. unfold int_range, int_min, int_max. lia.
Qed.

(** The loop only moves the cursor forward. *)
Lemma foldMessages_cursor_forward rows :
  ∀ rocket cursor,
    Rocket.LastMessageNumber rocket = Some cursor →
    int_range cursor →
    Forall (λ x, int_min < number_of x ∧ wellFormed x) rows →
    ∃ cursor', Rocket.LastMessageNumber (foldMessages rocket rows).1 = Some cursor'
               ∧ cursor <= cursor' ∧ int_range cursor'.
Proof.
  induction rows as [|x rows IH]; intros rocket cursor Hlast Hrange Hrows.
  { exists cursor. split; [done|]. split; [lia|done]. }
  inversion_clear Hrows as [|? ? [Hmin Hwf] Hrest].
  simpl. rewrite Hlast. case_decide as Hexp.
  - apply expected_is_successor in Hexp; [|done..].
    pose proof (applyMessage_cursor rocket x) as [Hc _].
    destruct (applyMessage rocket x) as [r1 [err|]]; simpl in *.
    + exists (number_of x). split; [done|]. split; [lia|done].
    + destruct (IH r1 (number_of x) Hc Hwf Hrest) as (cursor' & ? & ? & ?).
      exists cursor'. split; [done|]. split; [lia|done].
  - exists cursor. split; [done|]. split; [lia|done].
Qed.

(** When the loop ends without an error on rows in ascending order with
    distinct numbers, no row above the new cursor carries the number right
    after it: there is nothing left for a second pass. *)
Lemma foldMessages_settles rows :
  ∀ rocket cursor rocket',
    Rocket.LastMessageNumber rocket = Some cursor →
    int_range cursor →
    StronglySorted number_le rows →
    NoDup (number_of <$> rows) →
    Forall (λ x, cursor < number_of x ∧ wellFormed x) rows →
    foldMessages rocket rows = (rocket', Returned None) →
    ∃ cursor', Rocket.LastMessageNumber rocket' = Some cursor'
               ∧ cursor <= cursor' ∧ int_range cursor'
               ∧ ∀ x, x ∈ rows → cursor' < number_of x → number_of x ≠ cursor' + 1.
Proof.
  induction rows as [|x rows IH];
    intros rocket cursor rocket' Hlast Hrange Hsorted Hnodup Hrows Hloop.
  { simpl in Hloop. simplify_eq. exists cursor.
    split; [done|]. split; [lia|]. split; [done|].
    intros x Hx. by apply elem_of_nil in Hx. }
  inversion_clear Hrows as [|? ? [Hgt Hwf] Hrest].
  inversion_clear Hsorted as [|? ? Hsorted' Hhead].
  rewrite fmap_cons in Hnodup. apply NoDup_cons in Hnodup as [Hfresh Hnodup'].
  assert (int_min < number_of x) as Hmin by (unfold int_range in Hrange; lia).
  simpl in Hloop. rewrite Hlast in Hloop. case_decide as Hexp.
  - apply expected_is_successor in Hexp; [|done..].
    pose proof (applyMessage_cursor rocket x) as [Hc _].
    destruct (applyMessage rocket x) as [r1 [err|]]; simpl in *; [done|].
    destruct (IH r1 (number_of x) rocket' Hc Hwf Hsorted' Hnodup') as
      (cursor' & Hc' & Hle & Hrange' & Hnone); [|done|].
    + rewrite Forall_forall in Hhead, Hrest. apply Forall_forall. intros y Hy.
      split; [|by apply Hrest].
      assert (number_of y ≠ number_of x).
      { intros Heq. apply Hfresh. rewrite <- Heq. by apply list_elem_of_fmap_2. }
      specialize (Hhead y Hy). unfold number_le in Hhead. lia.
    + exists cursor'. split; [done|]. split; [lia|]. split; [done|].
      intros y Hy Hgt'. apply elem_of_cons in Hy as [->|Hy]; [lia|by apply Hnone].
  - simplify_eq. exists cursor. split; [done|]. split; [lia|]. split; [done|].
    rewrite expected_is_successor in Hexp by done.
    intros y Hy _. apply elem_of_cons in Hy as [->|Hy]; [done|].
    rewrite Forall_forall in Hhead. specialize (Hhead y Hy).
    unfold number_le in Hhead. lia.
Qed.

Lemma NoDup_fmap_filter_stronger {A B} (g : A → B) (P Q : A → Prop)
    `{∀ x, Decision (P x)} `{∀ x, Decision (Q x)} (l : list A) :
  (∀ x, Q x → P x) → NoDup (g <$> filter P l) → NoDup (g <$> filter Q l).
Proof.
  intros HQP. induction l as [|x l IH]; [done|].
  rewrite !filter_cons. intros Hnd.
  destruct (decide (Q x)) as [HQ|HQ].
  - rewrite decide_True in Hnd by auto. rewrite fmap_cons in Hnd |- *.
    apply NoDup_cons in Hnd as [Hx Hl]. constructor; [|auto].
    intros Hin. apply Hx.
    apply list_elem_of_fmap in Hin as (y & -> & Hy).
    apply list_elem_of_filter in Hy as [HQy Hy].
    apply list_elem_of_fmap_2, list_elem_of_filter. auto.
  - destruct (decide (P x)); [rewrite fmap_cons in Hnd;
                               apply NoDup_cons in Hnd as [_ Hnd]|]; auto.
Qed.

Lemma worldInvariant_keys w :
  worldInvariant w →
  ∀ channel r, rockets w !! channel = Some r → Rocket.Channel r = channel.
Proof. intros [_ Hstore] channel r Hlook. by eapply foldOfLog_channel, Hstore. Qed.

(** A cycle that reports success either had no rocket in hand and wrote
    nothing, or ended with the upsert of the folded rocket. *)
Lemma Process_success_cases f w w' message :
  Process f w message = (w', Returned None) →
  (rocketInHand f w message = inl None ∧ w' = w)
  ∨ ∃ rocket last msgs rocket',
      rocketInHand f w message = inl (Some rocket)
      ∧ Rocket.LastMessageNumber rocket = Some last
      ∧ FindAfterNumber f w (channel_of message) last = inl msgs
      ∧ foldMessages rocket msgs = (rocket', Returned None)
      ∧ w' = mkWorld (messages w) (<[Rocket.Channel rocket' := rocket']> (rockets w)).
Proof.
  unfold Process.
  destruct (rocketInHand f w message) as [[rocket|]|err] eqn:Hhand;
    [|intros [= <-]; by left|done].
  destruct (Rocket.LastMessageNumber rocket) as [last|] eqn:Hlast; [|done].
  destruct (FindAfterNumber f w (channel_of message) last) as [msgs|err] eqn:Hfind;
    [|done].
  destruct (foldMessages rocket msgs) as [rocket' [[err|]|]] eqn:Hloop; [done| |done].
  unfold Upsert. destruct (update_fails f); [done|].
  intros [= <-]. right. by exists rocket, last, msgs, rocket'.
Qed.

(** A cycle that has stored its result, run again without faults on that
    world, finds nothing to do. *)
Lemma Process_again_settled (f : Faults) (w w' : World) (message : Message.t) :
  worldInvariant w →
  number_of message = 1
  ∨ (find_one_fails f = false
     ∧ NoDup (number_of <$>
                filter (λ msg, channel_of msg = channel_of message) (messages w))) →
  Process f w message = (w', Returned None) →
  Process no_faults w' message = (w', Returned None).
Proof.
  intros Hinv Hcases Hfirst.
  pose proof (worldInvariant_keys w Hinv) as Hkeys.
  destruct (Process_success_cases f w w' message Hfirst)
    as [[Hnil ->]|(rocket & last & msgs & rocket' & Hhand & Hlast & Hfind & Hloop & ->)].
  { (* no rocket in hand: the channel has no projection *)
    unfold rocketInHand, FindByChannel in Hnil. case_decide as Hnum.
    { by destruct (buildRocketState _ _). }
    destruct Hcases as [?|[Hread _]]; [done|]. rewrite Hread in Hnil.
    apply Process_no_projection; [done|].
    by destruct (rockets w !! channel_of message). }
  assert (Rocket.Channel rocket' = channel_of message) as Hch.
  { replace rocket' with (foldMessages rocket msgs).1 by by rewrite Hloop.
    by rewrite foldMessages_channel, (rocketInHand_channel f w message rocket). }
  rewrite Hch. set (w' := mkWorld _ _).
  assert (find_fails f = false) as Hfindok.
  { unfold FindAfterNumber in Hfind. by destruct (find_fails f). }
  assert (msgs = merge_sort number_le
                   (filter (after_number (channel_of message) last) (messages w)))
    as Hmsgs by (unfold FindAfterNumber in Hfind; rewrite Hfindok in Hfind; congruence).
  destruct (decide (number_of message = 1)) as [Hone|Hnotone].
  - (* the fast path builds the same rocket and folds the same rows *)
    assert (rocketInHand no_faults w' message = inl (Some rocket)) as Hhand'.
    { unfold rocketInHand in *. by rewrite decide_True in * by done. }
    rewrite (Process_no_faults w' message rocket last Hhand' Hlast).
    simpl. rewrite <- Hmsgs, Hloop, Hch. unfold w'. simpl.
    by rewrite insert_insert_eq.
  - destruct Hcases as [?|[Hread Hnodup]]; [done|].
    (* the rocket in hand was the stored one *)
    assert (rockets w !! channel_of message = Some rocket) as Hstored.
    { unfold rocketInHand, FindByChannel in Hhand. rewrite decide_False in Hhand by done.
      rewrite Hread in Hhand. simpl in Hhand.
      destruct (rockets w !! channel_of message); by simplify_eq. }
    destruct Hinv as [Hwf Hstore].
    destruct (foldOfLog_cursor_range _ _ _ Hwf (Hstore _ _ Hstored))
      as (last' & Hlast' & Hrange).
    rewrite Hlast in Hlast'. injection Hlast' as <-.
    destruct (foldMessages_settles msgs rocket last rocket' Hlast Hrange)
      as (cursor' & Hcursor' & Hle & Hrange' & Hnone); [| | |done|].
    { rewrite Hmsgs. apply StronglySorted_merge_sort; apply _. }
    { rewrite Hmsgs, merge_sort_Permutation.
      refine (NoDup_fmap_filter_stronger number_of
                (λ msg, channel_of msg = channel_of message)
                (after_number (channel_of message) last) _ _ Hnodup).
      by intros x [? _]. }
    { eapply Forall_impl; [by eapply FindAfterNumber_rows|].
      simpl. intros x (Hx & _ & Hgt). split; [done|].
      rewrite Forall_forall in Hwf. by apply Hwf. }
    assert (rocketInHand no_faults w' message = inl (Some rocket')) as Hhand'.
    { unfold rocketInHand, FindByChannel. rewrite decide_False by done.
      simpl. by rewrite lookup_insert_eq. }
    rewrite (Process_no_faults w' message rocket' cursor' Hhand' Hcursor').
    simpl.
    assert (foldMessages rocket'
              (merge_sort number_le
                 (filter (after_number (channel_of message) cursor') (messages w)))
            = (rocket', Returned None)) as ->.
    { remember (merge_sort number_le
                  (filter (after_number (channel_of message) cursor') (messages w)))
        as rows eqn:Hrows.
      destruct rows as [|x rest]; [reflexivity|].
      assert (x ∈ merge_sort number_le
                    (filter (after_number (channel_of message) cursor') (messages w)))
        as Hx by (rewrite <- Hrows; left).
      rewrite merge_sort_Permutation in Hx.
      apply list_elem_of_filter in Hx as [[Hxch Hxgt] Hxin].
      assert (wellFormed x) as Hxwf by (rewrite Forall_forall in Hwf; by apply Hwf).
      apply (foldMessages_gap _ cursor'); [done|].
      rewrite expected_is_successor; [|done..|unfold int_range in Hrange'; lia].
      apply Hnone; [|done].
      rewrite Hmsgs, merge_sort_Permutation. apply list_elem_of_filter.
      split; [|done]. split; [done|lia]. }
    rewrite Hch. unfold w'. simpl. by rewrite insert_insert_eq.
Qed.

(** Either a fault keeps [Process] from writing, or the faults play no
    part in what it does. *)
Lemma Process_effective f w message :
  (Process f w message).1 = w ∨ Process f w message = Process no_faults w message.
Proof.
  destruct (decide (number_of message = 1)) as [Hone|Hnotone].
  - unfold Process, rocketInHand, FindAfterNumber, Upsert. rewrite !decide_True by done.
    destruct (buildRocketState _ _) as [r|err]; [|by left].
    destruct (Rocket.LastMessageNumber r) as [last|]; [|by left].
    destruct (find_fails f); [by left|]. simpl.
    destruct (foldMessages r _) as [r' [[err|]|]]; [by left| |by left].
    destruct (update_fails f); [by left|by right].
  - unfold Process, rocketInHand, FindByChannel, FindAfterNumber, Upsert.
    rewrite !decide_False by done.
    destruct (find_one_fails f); [by left|]. simpl.
    destruct (rockets w !! channel_of message) as [r|]; [|by left]. simpl.
    destruct (Rocket.LastMessageNumber r) as [last|]; [|by left].
    destruct (find_fails f); [by left|]. simpl.
    destruct (foldMessages r _) as [r' [[err|]|]]; [by left| |by left].
    destruct (update_fails f); [by left|by right].
Qed.

Lemma Process_same_faults f g w message :
  find_one_fails f = find_one_fails g →
  find_fails f = find_fails g →
  update_fails f = update_fails g →
  Process f w message = Process g w message.
Proof.
  intros H1 H2 H3.
  unfold Process, rocketInHand, FindByChannel, FindAfterNumber, Upsert.
  by rewrite H1, H2, H3.
Qed.

(** X9: reconciling twice changes nothing the second time. Take a cycle
    that has succeeded, with any storage faults as long as it did not
    swallow a failed read of the projection, on a channel whose rows carry
    distinct numbers (neither condition is needed for a message numbered
    1, which rebuilds the same rocket from the same log). Run again on the
    resulting world with no row logged in between, the cycle leaves the
    world as it is whichever storage calls fail in the second run, and it
    reports success when none of them fails. *)
Theorem reconcile_twice (f1 f2 : Faults) (w w' : World) (message : Message.t) :
  worldInvariant w →
  number_of message = 1
  ∨ (find_one_fails f1 = false
     ∧ NoDup (number_of <$>
                filter (λ msg, channel_of msg = channel_of message) (messages w))) →
  Process f1 w message = (w', Returned None) →
  (Process f2 w' message).1 = w'
  ∧ (find_one_fails f2 = false → find_fails f2 = false → update_fails f2 = false →
     Process f2 w' message = (w', Returned None)).
Proof.
  intros Hinv Hcases Hfirst.
  pose proof (Process_again_settled f1 w w' message Hinv Hcases Hfirst) as Hsecond.
  split.
  - destruct (Process_effective f2 w' message) as [?|Heq]; [done|].
    by rewrite Heq, Hsecond.
  - intros H1 H2 H3. by rewrite (Process_same_faults f2 no_faults).
Qed.

Lemma reconcile_twice_witness :
  (Process (mkFaults true false false false)
     (Process no_faults pendingWorld (speedIncreased 7 2 (whole 3000))).1
     (speedIncreased 7 2 (whole 3000))).1
  = (Process no_faults pendingWorld (speedIncreased 7 2 (whole 3000))).1
  ∧ (find_one_fails (mkFaults true false false false) = false →
     find_fails (mkFaults true false false false) = false →
     update_fails (mkFaults true false false false) = false →
     Process (mkFaults true false false false)
       (Process no_faults pendingWorld (speedIncreased 7 2 (whole 3000))).1
       (speedIncreased 7 2 (whole 3000))
     = ((Process no_faults pendingWorld (speedIncreased 7 2 (whole 3000))).1,
        Returned None)).
Proof.
  apply (reconcile_twice no_faults (mkFaults true false false false) pendingWorld).
  - split.
    + repeat (constructor; [vm_compute; split; discriminate|]). constructor.
    + intros channel r Hlook. simpl in Hlook.
      apply lookup_insert_Some in Hlook as [[<- <-]|[_ Hempty]];
        [|by rewrite lookup_empty in Hempty].
      exists [firstLaunch]. split; [discriminate|]. split; [|split].
      * intros [|i] msg Hi; simpl in Hi; [inversion Hi; reflexivity|discriminate].
      * constructor; [|constructor]. split; [|reflexivity].
        right. left.
      * reflexivity.
  - right. split; [reflexivity|]. vm_compute.
    repeat (constructor; [rewrite ?not_elem_of_cons; repeat split;
                          try discriminate; apply not_elem_of_nil|]).
    constructor.
  - reflexivity.
Defined.

(** X10: the cursor of a channel never goes back, unless a row numbered 1
    is ingested again. In a world the service can reach, after any
    [Ingest] of a message with another number, whichever storage calls
    fail, the channel still has its projection and the cursor of that
    projection is at least what it was. *)
Theorem cursor_moves_forward (f : Faults) (w : World) (message : Message.t)
    (rocket : Rocket.t) (cursor : Z) :
  reachable w →
  wellFormed message →
  number_of message ≠ 1 →
  rockets w !! channel_of message = Some rocket →
  Rocket.LastMessageNumber rocket = Some cursor →
  ∃ rocket' cursor',
    rockets (Ingest f w message).1 !! channel_of message = Some rocket'
    ∧ Rocket.LastMessageNumber rocket' = Some cursor'
    ∧ cursor <= cursor'.
Proof.
  intros Hreach Hmsg Hnotone Hstored Hcursor.
  pose proof (reachable_invariant w Hreach) as Hinv.
  pose proof (worldInvariant_keys w Hinv) as Hkeys.
  destruct Hinv as [Hwf Hstore].
  unfold Ingest, Store. destruct (insert_fails f).
  { exists rocket, cursor. repeat split; [done..|lia]. }
  set (w1 := mkWorld (messages w ++ [message]) (rockets w)).
  destruct (Process_cases f w1 message)
    as [->|(r0 & last & msgs & rocket' & Hhand & Hlast & Hfind & Hloop & ->)].
  { exists rocket, cursor. repeat split; [done..|lia]. }
  assert (r0 = rocket) as ->.
  { unfold rocketInHand, FindByChannel in Hhand. rewrite decide_False in Hhand by done.
    destruct (find_one_fails f); simpl in Hhand; [inversion Hhand|].
    unfold w1 in Hhand. simpl in Hhand. rewrite Hstored in Hhand.
    by inversion Hhand. }
  assert (last = cursor) as -> by congruence.
  destruct (foldOfLog_cursor_range _ _ _ Hwf (Hstore _ _ Hstored))
    as (c0 & Hc0 & Hrange).
  assert (c0 = cursor) as -> by congruence.
  destruct (foldMessages_cursor_forward msgs rocket cursor Hcursor Hrange)
    as (cursor' & Hcursor' & Hle & _).
  { apply FindAfterNumber_rows in Hfind. rewrite Forall_forall in Hfind.
    apply Forall_forall. intros x Hx. destruct (Hfind x Hx) as (Hin & _ & Hgt).
    unfold int_range in Hrange. split; [lia|].
    set (Hx' := Hin). clearbody Hx'. simpl in Hx'.
    apply elem_of_app in Hx' as [Hold|Hnew].
    - rewrite Forall_forall in Hwf. by apply Hwf.
    - by apply list_elem_of_singleton in Hnew as ->. }
  rewrite Hloop in Hcursor'. simpl in Hcursor'.
  exists rocket', cursor'. split; [|by split].
  simpl. replace (Rocket.Channel rocket') with (channel_of message).
  - by rewrite lookup_insert_eq.
  - replace rocket' with (foldMessages rocket msgs).1 by by rewrite Hloop.
    rewrite foldMessages_channel. symmetry. by apply Hkeys.
Qed.

Lemma cursor_moves_forward_witness :
  ∃ rocket' cursor',
    rockets (Ingest no_faults launchedWorld (speedIncreased 7 2 (whole 3000))).1
      !! channel_of (speedIncreased 7 2 (whole 3000)) = Some rocket'
    ∧ Rocket.LastMessageNumber rocket' = Some cursor'
    ∧ 1 <= cursor'.
Proof.
  apply (cursor_moves_forward no_faults launchedWorld
           (speedIncreased 7 2 (whole 3000)) launchedRocket 1).
  - apply (reachable_ingest no_faults emptyWorld firstLaunch);
      [apply reachable_empty | vm_compute; split; discriminate].
  - vm_compute. split; discriminate.
  - vm_compute. discriminate.
  - reflexivity.
  - reflexivity.
Defined.

(** X11: a second copy of a row ends the pass. When the loop has applied
    the expected row and the next row in the list carries the same number,
    the loop stops there without an error: the rows behind the copy, even
    the one with the next number, are left for a later cycle. *)
Theorem duplicate_ends_pass (rocket : Rocket.t) (cursor : Z)
    (row copy : Message.t) (later : list Message.t) :
  Rocket.LastMessageNumber rocket = Some cursor →
  number_of row = wrap_int (cursor + 1) →
  accepted row →
  number_of copy = number_of row →
  foldMessages rocket (row :: copy :: later)
  = ((applyMessage rocket row).1, Returned None).
Proof.
  intros Hcursor Hrow Hacc Hcopy.
  change (row :: copy :: later) with ([row] ++ copy :: later).
  rewrite (foldMessages_consecutive rocket cursor [row]);
    [|done|by split|by constructor].
  apply (foldMessages_gap _ (number_of row)).
  - apply applyMessage_cursor.
  - rewrite Hcopy. intros Heq. by apply (wrap_int_succ_ne (number_of row)).
Qed.

Lemma duplicate_ends_pass_witness :
  foldMessages launchedRocket
    (speedIncreased 7 2 (whole 3000) :: speedIncreased 7 2 (whole 10)
     :: [speedDecreased 7 3 (whole 500)])
  = ((applyMessage launchedRocket (speedIncreased 7 2 (whole 3000))).1, Returned None).
Proof.
  apply (duplicate_ends_pass launchedRocket 1).
  - reflexivity.
  - reflexivity.
  - intros rocket. reflexivity.
  - reflexivity.
Defined.

Lemma reachable_ingestAll w arrival :
  reachable w → Forall wellFormed arrival → reachable (ingestAll w arrival).
Proof.
  intros Hw. induction arrival as [|message arrival IH] using rev_ind; [done|].
  rewrite Forall_app, Forall_singleton. intros [Harrival Hmsg].
  rewrite ingestAll_snoc. apply reachable_ingest; auto.
Qed.

(** X18: a refused row stalls its channel. In a world the service can
    reach, when the log holds a row of a channel with the number right
    after the cursor of its projection and [applyMessage] refuses every
    row of the channel with that number, then every further [Ingest] for
    the channel of a message with a number other than 1 leaves the
    projection where it is, whichever storage calls fail and whatever rows
    with higher numbers are waiting in the log. What it returns is the
    store error when the insert fails (nothing is logged), success when
    the read of the projection fails (the error is swallowed), and the
    processing error in every other case. *)
Theorem refused_row_stalls_channel (f : Faults) (w : World) (message bad : Message.t)
    (rocket : Rocket.t) (cursor : Z) :
  reachable w →
  wellFormed message →
  number_of message ≠ 1 →
  rockets w !! channel_of message = Some rocket →
  Rocket.LastMessageNumber rocket = Some cursor →
  bad ∈ messages w →
  channel_of bad = channel_of message →
  number_of bad = cursor + 1 →
  (∀ row, row ∈ messages w ++ [message] →
          channel_of row = channel_of message →
          number_of row = cursor + 1 → rejected row) →
  Ingest f w message
  = if insert_fails f then (w, Returned (Some StoreMessageError))
    else (mkWorld (messages w ++ [message]) (rockets w),
          if find_one_fails f then Returned None
          else Returned (Some ProcessMessageError)).
Proof.
  intros Hreach Hmsg Hnotone Hstored Hcursor Hbad Hbadch Hbadnum Hrejected.
  destruct (reachable_invariant w Hreach) as [Hwf Hstore].
  destruct (foldOfLog_cursor_range _ _ _ Hwf (Hstore _ _ Hstored))
    as (c0 & Hc0 & Hrange).
  assert (c0 = cursor) as -> by congruence.
  unfold Ingest, Store. destruct (insert_fails f); [done|].
  set (w1 := mkWorld (messages w ++ [message]) (rockets w)).
  assert (Forall wellFormed (messages w1)) as Hwf1.
  { simpl. apply Forall_app. split; [done|]. by apply Forall_singleton. }
  unfold Process, rocketInHand, FindByChannel. rewrite decide_False by done.
  destruct (find_one_fails f); [done|]. simpl. rewrite Hstored. simpl.
  rewrite Hcursor. unfold FindAfterNumber. destruct (find_fails f); [done|]. simpl.
  remember (merge_sort number_le
              (filter (after_number (channel_of message) cursor)
                 (messages w ++ [message]))) as rows eqn:Hrows.
  assert (StronglySorted number_le rows) as Hsorted
    by (rewrite Hrows; apply StronglySorted_merge_sort; apply _).
  assert (∀ x, x ∈ rows ↔
               after_number (channel_of message) cursor x
               ∧ x ∈ messages w ++ [message]) as Hin.
  { intros x. by rewrite Hrows, merge_sort_Permutation, list_elem_of_filter. }
  assert (bad ∈ rows) as Hbadrow.
  { apply Hin. split; [split; [done|lia]|]. apply elem_of_app. by left. }
  destruct rows as [|x rest]; [by apply elem_of_nil in Hbadrow|].
  assert (x ∈ x :: rest) as Hx by left.
  apply Hin in Hx as [[Hxch Hxgt] Hxin].
  assert (number_of x = cursor + 1) as Hxnum.
  { apply elem_of_cons in Hbadrow as [<-|Hrest]; [done|].
    inversion_clear Hsorted as [|? ? _ Hhead].
    rewrite Forall_forall in Hhead. specialize (Hhead bad Hrest).
    unfold number_le in Hhead. lia. }
  assert (wellFormed x) as Hxwf by (rewrite Forall_forall in Hwf1; by apply Hwf1).
  rewrite (foldMessages_rejected rocket cursor x rest Hcursor); [done| |by apply Hrejected].
  apply expected_is_successor; [done..| |done]. unfold int_range in Hrange. lia.
Qed.

Lemma refused_row_stalls_channel_witness :
  Ingest (mkFaults false false true true) refusedWorld (missionChanged 7 5)
  = if insert_fails (mkFaults false false true true)
    then (refusedWorld, Returned (Some StoreMessageError))
    else (mkWorld (messages refusedWorld ++ [missionChanged 7 5]) (rockets refusedWorld),
          if find_one_fails (mkFaults false false true true) then Returned None
          else Returned (Some ProcessMessageError)).
Proof.
  apply (refused_row_stalls_channel (mkFaults false false true true) refusedWorld
           (missionChanged 7 5) (teleported 7 3)
           (stateAfter launchedRocket [speedIncreased 7 2 (whole 3000)]) 2).
  - apply reachable_ingestAll; [apply reachable_empty|].
    repeat (constructor; [vm_compute; split; discriminate|]). constructor.
  - vm_compute. split; discriminate.
  - vm_compute. discriminate.
  - reflexivity.
  - reflexivity.
  - right. right. left.
  - reflexivity.
  - reflexivity.
  - intros row Hrow Hch Hnum.
    assert (messages refusedWorld
            = [firstLaunch; speedIncreased 7 2 (whole 3000); teleported 7 3;
               exploded 7 4]) as Hlog by reflexivity.
    rewrite Hlog in Hrow. simpl in Hrow.
    rewrite !elem_of_cons, elem_of_nil in Hrow.
    destruct Hrow as [->|[->|[->|[->|[->|[]]]]]];
      [vm_compute in Hnum; discriminate
      |vm_compute in Hnum; discriminate
      |intros rocket; vm_compute; discriminate
      |vm_compute in Hnum; discriminate
      |vm_compute in Hnum; discriminate].
Defined.

(** ** The log as the source of the projection *)

Lemma ingestAll_messages w arrival :
  messages (ingestAll w arrival) = messages w ++ arrival.
Proof.
  induction arrival as [|message arrival IH] using rev_ind.
  - by rewrite app_nil_r.
  - rewrite ingestAll_snoc, Ingest_no_faults, Process_messages. simpl.
    by rewrite IH, (assoc_L (++)).
Qed.

Lemma consecutive_numbers_sorted base (msgs : list Message.t) :
  (∀ (i : nat) msg, msgs !! i = Some msg → number_of msg = base + Z.of_nat i) →
  StronglySorted number_le msgs.
Proof.
  revert base. induction msgs as [|x msgs IH]; intros base Hnum; [constructor|].
  constructor.
  - apply (IH (base + 1)). intros i msg Hi.
    rewrite (Hnum (S i) msg Hi). lia.
  - apply Forall_forall. intros y Hy.
    apply list_elem_of_lookup in Hy as [i Hi]. unfold number_le.
    rewrite (Hnum 0%nat x eq_refl), (Hnum (S i) y Hi). lia.
Qed.

(** X12: the log can be replayed. For a channel without history and
    accepted messages numbered 1..N ingested in any order without storage
    faults, the query of the whole channel returns the N messages in the
    order of their numbers, and [buildRocketState] run on that answer
    yields exactly the projection the incremental cycles have stored. *)
Theorem log_replay_gives_projection (w : World) (channel : N)
    (ms arrival : list Message.t) :
  channelFresh channel w →
  numberedFromOne ms →
  Forall (λ msg, channel_of msg = channel) ms →
  Forall wellFormed ms →
  Forall accepted ms →
  arrival ≡ₚ ms →
  MessageRepository_FindByChannel no_faults (ingestAll w arrival) channel = inl ms
  ∧ ∀ rocket,
      rockets (ingestAll w arrival) !! channel = Some rocket ↔
      ms ≠ [] ∧ buildRocketState channel ms = inl rocket.
Proof.
  intros Hfresh Hnum Hch Hwf Hacc Hperm. split.
  - unfold MessageRepository_FindByChannel. simpl. f_equal.
    rewrite ingestAll_messages, filter_app.
    destruct Hfresh as [Hlog _].
    assert (filter (λ msg, channel_of msg = channel) (messages w) = []) as ->.
    { clear -Hlog. induction Hlog as [|x l Hx _ IH]; [done|].
      by rewrite filter_cons_False. }
    assert (filter (λ msg, channel_of msg = channel) arrival = arrival) as ->.
    { assert (Forall (λ msg, channel_of msg = channel) arrival) as Hall
        by by rewrite Hperm.
      clear -Hall. induction Hall as [|x l Hx _ IH]; [done|].
      by rewrite filter_cons_True, IH. }
    simpl. apply (StronglySorted_unique_strong number_le).
    + intros x1 x2 Hx1 Hx2 H12 H21. rewrite merge_sort_Permutation, Hperm in Hx1.
      apply (ms_same_number ms Hnum); [done..|]. unfold number_le in *. lia.
    + apply StronglySorted_merge_sort; apply _.
    + apply (consecutive_numbers_sorted 1). intros i msg Hi.
      rewrite (Hnum i msg Hi). lia.
    + by rewrite merge_sort_Permutation.
  - intros rocket.
    rewrite (ingestAll_permutation channel ms Hnum Hch Hwf Hacc w arrival Hfresh Hperm).
    rewrite (buildRocketState_accepted channel ms Hacc).
    destruct ms; split; [done|by intros [? _]|intros [= <-]; by split|].
    intros [_ Heq]. by simplify_eq.
Qed.

Lemma log_replay_gives_projection_witness :
  MessageRepository_FindByChannel no_faults
    (ingestAll emptyWorld
       [speedDecreased 7 3 (whole 500); firstLaunch; speedIncreased 7 2 (whole 3000)]) 7
  = inl [firstLaunch; speedIncreased 7 2 (whole 3000); speedDecreased 7 3 (whole 500)].
Proof.
  apply (log_replay_gives_projection emptyWorld 7
           [firstLaunch; speedIncreased 7 2 (whole 3000); speedDecreased 7 3 (whole 500)]).
  - split; [constructor|reflexivity].
  - intros [|[|[|i]]] msg Hi; simpl in Hi; [inversion Hi; reflexivity..|discriminate].
  - repeat (constructor; [reflexivity|]). constructor.
  - repeat (constructor; [vm_compute; split; discriminate|]). constructor.
  - repeat (constructor; [intros rocket; reflexivity|]). constructor.
  - apply (Permutation_cons_append
             [firstLaunch; speedIncreased 7 2 (whole 3000)]
             (speedDecreased 7 3 (whole 500))).
Defined.

(** ** The mutex of a channel *)

Lemma getChannelMutex_registered m channel :
  channelMutexes (getChannelMutex m channel).1 !! channel
  = Some (getChannelMutex m channel).2.
Proof.
  unfold getChannelMutex.
  destruct (channelMutexes m !! channel) as [mutex|] eqn:Hlook; simpl; [done|].
  by rewrite lookup_insert_eq.
Qed.

Lemma getChannelMutex_keeps m channel channel' mutex :
  channelMutexes m !! channel = Some mutex →
  channelMutexes (getChannelMutex m channel').1 !! channel = Some mutex.
Proof.
  intros Hlook. unfold getChannelMutex.
  destruct (channelMutexes m !! channel') as [mutex'|] eqn:Hlook'; simpl; [done|].
  rewrite lookup_insert_ne; [done|]. congruence.
Qed.

Lemma mutexesAfter_keeps m channels channel mutex :
  channelMutexes m !! channel = Some mutex →
  channelMutexes (mutexesAfter m channels) !! channel = Some mutex.
Proof.
  revert m. induction channels as [|c channels IH]; intros m Hlook; [done|].
  simpl. by apply IH, getChannelMutex_keeps.
Qed.

(** In a lock map the service can hold every mutex was allocated, and no
    mutex is registered for two channels. *)
Lemma mutexesReachable_invariant m :
  mutexesReachable m →
  (∀ channel mutex, channelMutexes m !! channel = Some mutex → (mutex < allocated m)%nat)
  ∧ (∀ c1 c2 mutex,
       channelMutexes m !! c1 = Some mutex → channelMutexes m !! c2 = Some mutex →
       c1 = c2).
Proof.
  induction 1 as [|m channel _ [Hbound Hinj]].
  - split; intros *; simpl; by rewrite lookup_empty.
  - unfold getChannelMutex.
    destruct (channelMutexes m !! channel) as [mutex|] eqn:Hlook; simpl; [done|].
    split.
    + intros c mu. rewrite lookup_insert. case_decide.
      * intros [= <-]. lia.
      * intros Hc. apply Hbound in Hc. lia.
    + intros c1 c2 mu. rewrite !lookup_insert.
      repeat case_decide; subst; try done.
      * intros [= <-] Hc2. apply Hbound in Hc2. lia.
      * intros Hc1 [= <-]. apply Hbound in Hc1. lia.
      * apply Hinj.
Qed.

Lemma mutexesAfter_reachable m channels :
  mutexesReachable m → mutexesReachable (mutexesAfter m channels).
Proof.
  revert m. induction channels as [|c channels IH]; intros m Hm; [done|].
  simpl. by apply IH, mutexes_get.
Qed.

(** X13: one mutex per channel. Starting from any lock map the service
    can hold, a call of [getChannelMutex] and any later call, with any
    number of calls for any channels in between, return the same mutex
    exactly when they are made for the same channel: a channel keeps the
    mutex of its first call for good, and no two channels share one. *)
Theorem one_mutex_per_channel (m : Mutexes) (between : list N) (c1 c2 : N) :
  mutexesReachable m →
  (getChannelMutex m c1).2
  = (getChannelMutex (mutexesAfter (getChannelMutex m c1).1 between) c2).2
  ↔ c1 = c2.
Proof.
  intros Hm.
  set (m1 := (getChannelMutex m c1).1).
  set (m2 := mutexesAfter m1 between).
  assert (channelMutexes m2 !! c1 = Some (getChannelMutex m c1).2) as Hfirst
    by apply mutexesAfter_keeps, getChannelMutex_registered.
  assert (mutexesReachable (getChannelMutex m2 c2).1) as Hreach
    by by apply mutexes_get, mutexesAfter_reachable, mutexes_get.
  destruct (mutexesReachable_invariant _ Hreach) as [_ Hinj].
  split.
  - intros Heq. apply (Hinj c1 c2 (getChannelMutex m c1).2).
    + by apply getChannelMutex_keeps.
    + rewrite Heq. apply getChannelMutex_registered.
  - intros <-. unfold getChannelMutex at 2. by rewrite Hfirst.
Qed.

Lemma one_mutex_per_channel_witness :
  (getChannelMutex newMutexes 7).2
  = (getChannelMutex (mutexesAfter (getChannelMutex newMutexes 7).1 [8; 9; 8]%N) 7).2.
Proof.
  apply (one_mutex_per_channel newMutexes [8; 9; 8]%N 7 7);
    [apply mutexes_new | reflexivity].
Defined.

(** ** The handlers *)

Lemma toAPIRocket_id r : toAPIRocket r = r.
Proof. by destruct r as [? ? ? ? ? ? [?|] [?|]]. Qed.

(** X14: what the status of [PostMessage] tells. A body that does not
    decode is answered 400 and changes nothing. Otherwise the answer is 200
    or 500: with 200 the message is in the log (although the projection
    need not have moved), with 500 every projection is as it was, and in a
    world the service can reach the handler does not panic. *)
Theorem PostMessage_status (f : Faults) (w : World) (body : option Message.t) :
  (body = None → PostMessage f w body = (w, Status StatusBadRequest))
  ∧ (∀ message, body = Some message →
       ((PostMessage f w body).2 = Status StatusOK
        ∨ (PostMessage f w body).2 = Status StatusInternalServerError
        ∨ (PostMessage f w body).2 = HandlerPanicked)
       ∧ ((PostMessage f w body).2 = Status StatusOK →
          messages (PostMessage f w body).1 = messages w ++ [message])
       ∧ ((PostMessage f w body).2 ≠ Status StatusOK →
          rockets (PostMessage f w body).1 = rockets w)
       ∧ (reachable w → (PostMessage f w body).2 ≠ HandlerPanicked)).
Proof.
  split; [by intros ->|]. intros message ->. unfold PostMessage.
  pose proof (Ingest_logs_first_aux f w message) as Hlog.
  pose proof (Ingest_failure_aux f w message) as Hfail.
  pose proof (λ Hreach, proj2 (Ingest_cursorsSet f w message
                                 (reachable_cursorsSet w Hreach))) as Hpanic.
  destruct (Ingest f w message) as [w' [[err|]|]]; simpl in *.
  - split; [auto|]. split; [done|]. split; [|done]. intros _. by apply Hfail.
  - split; [auto|]. split; [|done]. intros _. by apply Hlog.
  - split; [auto|]. split; [done|]. split; [intros _; by apply Hfail|].
    intros Hreach. by destruct (Hpanic Hreach).
Qed.

Lemma PostMessage_status_witness :
  ((PostMessage (mkFaults false true false false) launchedWorld
      (Some (speedIncreased 7 2 (whole 3000)))).2 = Status StatusOK
   ∨ (PostMessage (mkFaults false true false false) launchedWorld
        (Some (speedIncreased 7 2 (whole 3000)))).2 = Status StatusInternalServerError
   ∨ (PostMessage (mkFaults false true false false) launchedWorld
        (Some (speedIncreased 7 2 (whole 3000)))).2 = HandlerPanicked)
  ∧ ((PostMessage (mkFaults false true false false) launchedWorld
        (Some (speedIncreased 7 2 (whole 3000)))).2 = Status StatusOK →
     messages (PostMessage (mkFaults false true false false) launchedWorld
                 (Some (speedIncreased 7 2 (whole 3000)))).1
     = messages launchedWorld ++ [speedIncreased 7 2 (whole 3000)])
  ∧ ((PostMessage (mkFaults false true false false) launchedWorld
        (Some (speedIncreased 7 2 (whole 3000)))).2 ≠ Status StatusOK →
     rockets (PostMessage (mkFaults false true false false) launchedWorld
                (Some (speedIncreased 7 2 (whole 3000)))).1
     = rockets launchedWorld)
  ∧ (reachable launchedWorld →
     (PostMessage (mkFaults false true false false) launchedWorld
        (Some (speedIncreased 7 2 (whole 3000)))).2 ≠ HandlerPanicked).
Proof.
  apply (PostMessage_status (mkFaults false true false false) launchedWorld
           (Some (speedIncreased 7 2 (whole 3000)))).
  reflexivity.
Defined.

(** X15: [GetRocket] answers 200 with the stored projection, every field
    as stored, exactly when the channel has a projection and the read
    succeeds; in every other case, a missing projection as much as a
    failure of the driver, it answers 404 without a body. It never
    panics. *)
Theorem GetRocket_status (f : Faults) (w : World) (channel : N) :
  (∀ rocket,
     GetRocket f w channel = (Status StatusOK, Some rocket) ↔
     find_one_fails f = false ∧ rockets w !! channel = Some rocket)
  ∧ (GetRocket f w channel = (Status StatusNotFound, None) ↔
     find_one_fails f = true ∨ rockets w !! channel = None)
  ∧ (GetRocket f w channel).1 ≠ HandlerPanicked.
Proof.
  unfold GetRocket, GetByChannel, FindByChannel.
  destruct (find_one_fails f); simpl.
  - split; [|split; [|done]].
    + intros rocket. split; [done|by intros [? _]].
    + split; auto.
  - destruct (rockets w !! channel) as [r|]; simpl.
    + rewrite toAPIRocket_id. split; [|split; [|done]].
      * intros rocket. split; [by intros [= <-]|by intros [_ [= <-]]].
      * split; [done|by intros [?|?]].
    + split; [|split; [|done]].
      * intros rocket. split; [done|by intros [_ ?]].
      * split; auto.
Qed.

Lemma GetRocket_status_witness :
  GetRocket no_faults launchedWorld 7 = (Status StatusOK, Some launchedRocket).
Proof.
  apply (GetRocket_status no_faults launchedWorld 7). split; reflexivity.
Defined.

Lemma Process_first_success f w message :
  number_of message = 1 →
  (Process f w message).2 = Returned None →
  ∃ rocket,
    rockets (Process f w message).1 !! channel_of message = Some rocket
    ∧ Rocket.Channel rocket = channel_of message
    ∧ is_Some (Rocket.LastMessageNumber rocket).
Proof.
  intros Hone. unfold Process, rocketInHand. rewrite decide_True by done.
  destruct (buildRocketState (channel_of message) [message]) as [rocket|err] eqn:Hbuild;
    [|done].
  apply buildRocketState_inl in Hbuild as [_ Hrocket].
  destruct (Rocket.LastMessageNumber rocket) as [last|] eqn:Hlast; [|done].
  destruct (FindAfterNumber f w (channel_of message) last) as [msgs|err]; [|done].
  pose proof (foldMessages_channel rocket msgs) as Hch.
  pose proof (foldMessages_cursor rocket msgs (ltac:(eauto))) as Hcursor.
  destruct (foldMessages rocket msgs) as [rocket' [[err|]|]]; [done| |done].
  simpl in Hch, Hcursor. unfold Upsert. destruct (update_fails f); [done|].
  simpl. intros _. exists rocket'.
  assert (Rocket.Channel rocket' = channel_of message) as Hch'.
  { rewrite Hch, Hrocket. apply stateAfter_channel. }
  rewrite Hch', lookup_insert_eq. done.
Qed.

(** X16: a 200 for a message numbered 1 means the channel has a
    projection. Whatever the world before and whichever rows were already
    logged, when [PostMessage] answers 200 for a message numbered 1, a
    [GetRocket] for its channel on the resulting world answers 200 with a
    rocket of that channel whose cursor is set. *)
Theorem post_first_then_get (f : Faults) (w w' : World) (message : Message.t) :
  number_of message = 1 →
  PostMessage f w (Some message) = (w', Status StatusOK) →
  ∃ rocket,
    GetRocket no_faults w' (channel_of message) = (Status StatusOK, Some rocket)
    ∧ Rocket.Channel rocket = channel_of message
    ∧ is_Some (Rocket.LastMessageNumber rocket).
Proof.
  intros Hone. unfold PostMessage, Ingest, Store.
  destruct (insert_fails f); [done|].
  set (w1 := mkWorld (messages w ++ [message]) (rockets w)).
  pose proof (Process_first_success f w1 message Hone) as Hfirst.
  destruct (Process f w1 message) as [w2 [[err|]|]]; [done| |done].
  intros [= <-]. destruct (Hfirst eq_refl) as (rocket & Hlook & Hch & Hcursor).
  exists rocket. split; [|done].
  unfold GetRocket, GetByChannel, FindByChannel. simpl in *.
  by rewrite Hlook, toAPIRocket_id.
Qed.

Lemma post_first_then_get_witness :
  ∃ rocket,
    GetRocket no_faults (PostMessage no_faults relaunchedWorld (Some firstLaunch)).1
      (channel_of firstLaunch) = (Status StatusOK, Some rocket)
    ∧ Rocket.Channel rocket = channel_of firstLaunch
    ∧ is_Some (Rocket.LastMessageNumber rocket).
Proof.
  apply (post_first_then_get no_faults relaunchedWorld
           (PostMessage no_faults relaunchedWorld (Some firstLaunch)).1 firstLaunch);
    reflexivity.
Defined.

(** ** The stored projections *)

(** X17: what every stored projection looks like. In a world the service
    can reach, the projection stored for a channel carries that channel,
    its status is active or exploded, it has an explosion reason whenever
    it is exploded, its speed is a Go int, its cursor is a positive Go int
    and its last message time is set; and the log holds a row of the
    channel numbered 1: no channel gets a projection before its first
    message has arrived. *)
Theorem stored_projection_shape (w : World) (channel : N) (rocket : Rocket.t) :
  reachable w →
  rockets w !! channel = Some rocket →
  Rocket.Channel rocket = channel
  ∧ wellShaped rocket
  ∧ (∃ cursor, Rocket.LastMessageNumber rocket = Some cursor
               ∧ 1 <= cursor ∧ int_range cursor)
  ∧ is_Some (Rocket.LastMessageTime rocket)
  ∧ ∃ first, first ∈ messages w ∧ channel_of first = channel ∧ number_of first = 1.
Proof.
  intros Hreach Hlook.
  destruct (reachable_invariant w Hreach) as [Hwf Hstore].
  pose proof (Hstore _ _ Hlook) as Hfold.
  split; [by eapply foldOfLog_channel|].
  destruct (foldOfLog_cursor_pos _ _ _ Hfold) as (cursor & Hcursor & Hpos).
  destruct (foldOfLog_cursor_range _ _ _ Hwf Hfold) as (cursor' & Hcursor' & Hrange).
  assert (cursor' = cursor) as -> by congruence.
  destruct Hfold as (applied & Hne & Hnum & Hlog & Hbuild).
  apply buildRocketState_inl in Hbuild as [_ ->].
  split; [apply stateAfter_wellShaped, newRocket_wellShaped|].
  split; [by exists cursor|]. split.
  - destruct applied as [|x l _] using rev_ind; [done|].
    rewrite stateAfter_snoc.
    destruct (applyMessage_cursor (stateAfter (newRocket channel) l) x) as [_ ->].
    eauto.
  - destruct applied as [|first rest]; [done|].
    apply Forall_cons in Hlog as [[Hin Hch] _].
    exists first. split; [done|]. split; [done|].
    by rewrite (Hnum 0%nat first eq_refl).
Qed.

Lemma stored_projection_shape_witness :
  Rocket.Channel launchedRocket = 7%N
  ∧ wellShaped launchedRocket
  ∧ (∃ cursor, Rocket.LastMessageNumber launchedRocket = Some cursor
               ∧ 1 <= cursor ∧ int_range cursor)
  ∧ is_Some (Rocket.LastMessageTime launchedRocket)
  ∧ ∃ first, first ∈ messages launchedWorld ∧ channel_of first = 7%N
             ∧ number_of first = 1.
Proof.
  apply (stored_projection_shape launchedWorld 7 launchedRocket).
  - apply (reachable_ingest no_faults emptyWorld firstLaunch);
      [apply reachable_empty | vm_compute; split; discriminate].
  - reflexivity.
Defined.
